(** * Policy iteration on a finite MDP

    A shallow embedding of
    [Programming Assignments/Dynamic Programming/policy_iteration.py]:
    [policy_eval] (iterative policy evaluation), the nested helper
    [one_step_lookahead] and the outer loop [policy_improvement].

    The Python code works on three objects that live on the heap and are
    passed by reference: the environment [env], the numpy array [policy] and
    the numpy array [V] that [policy_eval] fills.  The embedding threads them
    through a small state-and-exception monad, so that every read and every
    write of the source is a read or a write of the model.

    Arithmetic is kept abstract (class [Scalar]) and instantiated twice:
    with IEEE binary64 numbers, which is what numpy computes with, and with
    normalised rationals, where the usual laws of an ordered field hold. *)

From Stdlib Require Import List Arith Lia Bool ZArith QArith Qabs Qreduction.
From Stdlib Require Import PrimFloat.
From Stdlib Require FloatAxioms SpecFloat FloatOps.
Import ListNotations.

Set Implicit Arguments.
Local Open Scope nat_scope.

(** ** Scalars *)

(** The operations the source applies to numbers: [+], [-], [*], [/],
    [np.abs], [<] and the conversion of a count to a number; [<=] is the
    comparison inside [np.argmax]. *)
Class Scalar (R : Type) : Type := {
  Szero : R;
  Sone : R;
  Sadd : R -> R -> R;
  Ssub : R -> R -> R;
  Smul : R -> R -> R;
  Sdiv : R -> R -> R;
  Sabs : R -> R;
  Sltb : R -> R -> bool;
  Sleb : R -> R -> bool;
  Sof_nat : nat -> R
}.

Declare Scope scalar_scope.
Delimit Scope scalar_scope with S.
Notation "x + y" := (Sadd x y) : scalar_scope.
Notation "x - y" := (Ssub x y) : scalar_scope.
Notation "x * y" := (Smul x y) : scalar_scope.
Notation "x / y" := (Sdiv x y) : scalar_scope.
Notation "x <? y" := (Sltb x y) : scalar_scope.
Notation "x <=? y" := (Sleb x y) : scalar_scope.

(** ** Python exceptions and results *)

Inductive pyerr : Type :=
| IndexError   (* an array indexed out of range *)
| KeyError     (* [env.P[s][a]] for a missing key *)
| ValueError.  (* [np.argmax] of an empty sequence *)

(** What running a piece of code gives: a value, a raised exception, or no
    answer within the number of loop iterations allowed. *)
Inductive result (A : Type) : Type :=
| Val (a : A)
| Exn (e : pyerr)
| Timeout.

Arguments Exn {A} e.
Arguments Timeout {A}.

Definition rbind {A B} (r : result A) (k : A -> result B) : result B :=
  match r with
  | Val a => k a
  | Exn e => Exn e
  | Timeout => Timeout
  end.

Notation "x <-- r ;; k" := (rbind r (fun x => k))
  (at level 61, r at next level, right associativity).

(** A loop over [l] that threads [acc] and stops at the first exception. *)
Fixpoint rfold {A B} (body : B -> A -> result B) (l : list A) (acc : B)
    : result B :=
  match l with
  | [] => Val acc
  | x :: t => acc' <-- body acc x ;; rfold body t acc'
  end.

(** [[f(x) for x in l]] *)
Definition rmap {A B} (f : A -> result B) (l : list A) : result (list B) :=
  rfold (fun acc x => y <-- f x ;; Val (acc ++ [y])) l [].

(** [l[i] = x] on an array: [None] when [i] is out of range. *)
Fixpoint list_set {A} (l : list A) (i : nat) (x : A) : option (list A) :=
  match l, i with
  | [], _ => None
  | _ :: t, 0 => Some (x :: t)
  | y :: t, S j => option_map (cons y) (list_set t j x)
  end.

(** [enumerate(l)], counting from [i]. *)
Fixpoint enumerate_from {A} (i : nat) (l : list A) : list (nat * A) :=
  match l with
  | [] => []
  | x :: t => (i, x) :: enumerate_from (S i) t
  end.

Definition enumerate {A} (l : list A) : list (nat * A) := enumerate_from 0 l.

Section PolicyIteration.

Context {R : Type} {SR : Scalar R}.

Local Open Scope scalar_scope.

(** ** The environment and the heap *)

(** A transition tuple [(prob, next_state, reward, done)]. *)
Definition Transition : Type := (R * nat * R * bool)%type.

(** [env.nS], [env.nA] and the table [env.P]: [P s a] is [None] where
    [env.P[s][a]] raises [KeyError]. *)
Record Env : Type := mkEnv {
  nS : nat;
  nA : nat;
  P : nat -> nat -> option (list Transition)
}.

(** The objects the code shares by reference.  [h_V] is the array [V] of
    the running call of [policy_eval]; what [policy_eval] returns is a copy,
    which [policy_improvement] only reads, so there it is a plain value. *)
Record Heap : Type := mkHeap {
  h_env : Env;
  h_policy : list (list R);
  h_V : list R
}.

(** ** The monad *)

Definition M (A : Type) : Type := Heap -> result (A * Heap).

Definition ret {A} (a : A) : M A := fun h => Val (a, h).

Definition bind {A B} (m : M A) (k : A -> M B) : M B :=
  fun h =>
    match m h with
    | Val (a, h') => k a h'
    | Exn e => Exn e
    | Timeout => Timeout
    end.

Definition timeout {A} : M A := fun _ => Timeout.

Notation "x <- m ;; k" := (bind m (fun x => k))
  (at level 61, m at next level, right associativity).
Notation "m ;;; k" := (bind m (fun _ => k))
  (at level 61, right associativity).

(** What a call returns, the final heap forgotten. *)
Definition value_of {A} (r : result (A * Heap)) : result A :=
  match r with
  | Val (a, _) => Val a
  | Exn e => Exn e
  | Timeout => Timeout
  end.

(** [for x in l: acc = body(acc, x)] *)
Fixpoint foldM {A B} (body : B -> A -> M B) (l : list A) (acc : B) : M B :=
  match l with
  | [] => ret acc
  | x :: t => acc' <- body acc x ;; foldM body t acc'
  end.

(** *** Reads and writes *)

Definition env_nS : M nat := fun h => Val (nS (h_env h), h).

Definition env_nA : M nat := fun h => Val (nA (h_env h), h).

(** [env.P[s][a]] *)
Definition env_P (s a : nat) : M (list Transition) :=
  fun h =>
    match P (h_env h) s a with
    | Some l => Val (l, h)
    | None => Exn KeyError
    end.

(** [policy[s]] *)
Definition policy_row (s : nat) : M (list R) :=
  fun h =>
    match nth_error (h_policy h) s with
    | Some row => Val (row, h)
    | None => Exn IndexError
    end.

(** [policy[s] = row]; the array and [row] both have [env.nA] columns. *)
Definition set_policy_row (s : nat) (row : list R) : M unit :=
  fun h =>
    match list_set (h_policy h) s row with
    | Some p => Val (tt, mkHeap (h_env h) p (h_V h))
    | None => Exn IndexError
    end.

(** [policy = ...] *)
Definition new_policy (p : list (list R)) : M unit :=
  fun h => Val (tt, mkHeap (h_env h) p (h_V h)).

Definition get_policy : M (list (list R)) := fun h => Val (h_policy h, h).

(** [V[i]] inside [policy_eval] *)
Definition get_V (i : nat) : M R :=
  fun h =>
    match nth_error (h_V h) i with
    | Some x => Val (x, h)
    | None => Exn IndexError
    end.

(** [V[i] = v] inside [policy_eval] *)
Definition set_V (i : nat) (v : R) : M unit :=
  fun h =>
    match list_set (h_V h) i v with
    | Some V => Val (tt, mkHeap (h_env h) (h_policy h) V)
    | None => Exn IndexError
    end.

(** [V = ...] inside [policy_eval] *)
Definition new_V (V : list R) : M unit :=
  fun h => Val (tt, mkHeap (h_env h) (h_policy h) V).

(** [np.array(V)]: a copy of the contents *)
Definition copy_V : M (list R) := fun h => Val (h_V h, h).

(** A computation that touches no shared object. *)
Definition lift {A} (r : result A) : M A :=
  fun h =>
    match r with
    | Val a => Val (a, h)
    | Exn e => Exn e
    | Timeout => Timeout
    end.

(** [l[i]] on an array held in a local variable. *)
Definition index {A} (l : list A) (i : nat) : result A :=
  match nth_error l i with
  | Some x => Val x
  | None => Exn IndexError
  end.

(** [l[i] = x] on an array held in a local variable. *)
Definition index_set {A} (l : list A) (i : nat) (x : A) : result (list A) :=
  match list_set l i x with
  | Some l' => Val l'
  | None => Exn IndexError
  end.

(** *** Built-ins *)

(** Python's [max(a, b)]: [b] when [b > a], else [a]. *)
Definition pymax (a b : R) : R := if a <? b then b else a.

(** [x != x], which holds of NaN alone. *)
Definition is_nan (x : R) : bool := negb (x <=? x).

(** [np.argmax] makes one pass over the array: it keeps the first entry,
    moves on to an entry [x] when [x <= best] fails, and stops at once on a
    NaN, which counts as maximal.  So it answers with the index of the
    first NaN if there is one, and of the first maximum otherwise. *)
Fixpoint argmax_from (l : list R) (i best : nat) (bestv : R) : nat :=
  match l with
  | [] => best
  | x :: t =>
      if x <=? bestv then argmax_from t (S i) best bestv
      else if is_nan x then i
      else argmax_from t (S i) i x
  end.

Definition argmax (l : list R) : result nat :=
  match l with
  | [] => Exn ValueError
  | x :: t => if is_nan x then Val 0 else Val (argmax_from t 1 0 x)
  end.

(** [np.zeros(n)] *)
Definition zeros (n : nat) : list R := repeat Szero n.

(** [np.eye(n)[i]] *)
Definition eye_row (n i : nat) : list R :=
  map (fun j => if Nat.eqb j i then Sone else Szero) (seq 0 n).

(** ** policy_eval (lines 12-55) *)

(** Line 43, one transition tuple:
    [v += action_prob * prob * (reward + discount_factor * V[next_state])] *)
Definition backup_step (discount_factor action_prob : R)
    (v : R) (t : Transition) : M R :=
  let '(prob, next_state, reward, done) := t in
  x <- get_V next_state ;;
  ret (v + action_prob * prob * (reward + discount_factor * x)).

(** Lines 41-43, one action of the policy row. *)
Definition backup_action (discount_factor : R) (s : nat)
    (v : R) (ap : nat * R) : M R :=
  let '(a, action_prob) := ap in
  trans <- env_P s a ;;
  foldM (backup_step discount_factor action_prob) trans v.

(** Lines 37-43: the full backup [v] of state [s]. *)
Definition full_backup (discount_factor : R) (s : nat) : M R :=
  row <- policy_row s ;;
  foldM (backup_action discount_factor s) (enumerate row) Szero.

(** Lines 37-48: the body of [for s in range(env.nS)]. *)
Definition eval_state (discount_factor : R) (delta : R) (s : nat) : M R :=
  v <- full_backup discount_factor s ;;
  old <- get_V s ;;
  let delta' := pymax delta (Sabs (v - old)) in
  set_V s v ;;;
  ret delta'.

(** Lines 34-48: one sweep; it returns [delta].  ([old_v = V] on line 33
    gives the array a second name that is never read.) *)
Definition eval_sweep (discount_factor : R) : M R :=
  n <- env_nS ;;
  foldM (eval_state discount_factor) (seq 0 n) Szero.

(** Lines 32-53: [while True], for at most [fuel] sweeps. *)
Fixpoint eval_loop (discount_factor theta : R) (fuel : nat) : M unit :=
  match fuel with
  | 0 => timeout
  | S fuel' =>
      delta <- eval_sweep discount_factor ;;
      if delta <? theta then ret tt
      else eval_loop discount_factor theta fuel'
  end.

(** [policy_eval(policy, env, discount_factor, theta)], where [policy]
    and [env] are the objects of the heap.  It fills a fresh array [V]
    (line 30) and returns a copy of it (line 55). *)
Definition policy_eval (discount_factor theta : R) (fuel : nat)
    : M (list R) :=
  n <- env_nS ;;
  new_V (zeros n) ;;;
  eval_loop discount_factor theta fuel ;;;
  copy_V.

(** The defaults of [policy_eval]: [discount_factor=1.0], [theta=0.00001]. *)
Definition default_discount_factor : R := Sone.
Definition default_theta : R := Sone / Sof_nat (100 * 1000).

(** ** policy_improvement (lines 57-116) *)

(** Line 86, one transition tuple:
    [A[a] += prob * (reward + discount_factor * V[next_state])] *)
Definition lookahead_step (discount_factor : R) (V : list R) (a : nat)
    (A : list R) (t : Transition) : M (list R) :=
  let '(prob, next_state, reward, done) := t in
  x <- lift (index V next_state) ;;
  cur <- lift (index A a) ;;
  lift (index_set A a (cur + prob * (reward + discount_factor * x))).

(** Lines 85-86, one action. *)
Definition lookahead_action (discount_factor : R) (V : list R) (state : nat)
    (A : list R) (a : nat) : M (list R) :=
  trans <- env_P state a ;;
  foldM (lookahead_step discount_factor V a) trans A.

(** Lines 75-88.  The closure reads [env] and [discount_factor] from the
    enclosing call of [policy_improvement]. *)
Definition one_step_lookahead (discount_factor : R) (state : nat)
    (V : list R) : M (list R) :=
  n <- env_nA ;;
  foldM (lookahead_action discount_factor V state) (seq 0 n) (zeros n).

(** Lines 102-112: the body of [for s in range(env.nS)]. *)
Definition improve_state (discount_factor : R) (V : list R)
    (policy_stable : bool) (s : nat) : M bool :=
  row <- policy_row s ;;
  old_action <- lift (argmax row) ;;
  action_values <- one_step_lookahead discount_factor s V ;;
  best_a <- lift (argmax action_values) ;;
  let policy_stable' :=
    if negb (Nat.eqb old_action best_a) then false else policy_stable in
  n <- env_nA ;;
  set_policy_row s (eye_row n best_a) ;;;
  ret policy_stable'.

(** Lines 98-112: one improvement of every row of [policy] from [V]; it
    returns [policy_stable]. *)
Definition improve (discount_factor : R) (V : list R) : M bool :=
  n <- env_nS ;;
  foldM (improve_state discount_factor V) (seq 0 n) true.

(** Lines 93-116: [while True], for at most [fuel] rounds.  Line 95 is
    [V = policy_eval(policy, env)]: the module-level function, with its
    default [discount_factor] and [theta]. *)
Fixpoint improvement_loop (discount_factor : R) (fuel_eval fuel : nat)
    : M (list (list R) * list R) :=
  match fuel with
  | 0 => timeout
  | S fuel' =>
      V <- policy_eval default_discount_factor default_theta fuel_eval ;;
      policy_stable <- improve discount_factor V ;;
      if policy_stable then
        policy <- get_policy ;;
        ret (policy, V)
      else improvement_loop discount_factor fuel_eval fuel'
  end.

(** Line 91: [np.ones([env.nS, env.nA]) / env.nA] *)
Definition uniform_policy (n_s n_a : nat) : list (list R) :=
  repeat (repeat (Sone / Sof_nat n_a) n_a) n_s.

(** [policy_improvement(env, policy_eval_fn, discount_factor)]; each loop
    runs for at most [fuel] iterations. *)
Definition policy_improvement
    (policy_eval_fn : R -> R -> nat -> M (list R))
    (discount_factor : R) (fuel : nat) : M (list (list R) * list R) :=
  n_s <- env_nS ;;
  n_a <- env_nA ;;
  new_policy (uniform_policy n_s n_a) ;;;
  improvement_loop discount_factor fuel fuel.

(** ** What the loops compute, as functions of their arguments *)

(** [env.P[s][a]] *)
Definition transitions (env : Env) (s a : nat) : result (list Transition) :=
  match P env s a with
  | Some l => Val l
  | None => Exn KeyError
  end.

(** The full backup of state [s] read off a value vector [W]:
    the sum over [a] and over [(prob, next_state, reward, done)] in
    [env.P[s][a]] of [policy[s][a] * prob * (reward + discount_factor *
    W[next_state])], added up in the order of the source. *)
Definition backup (env : Env) (policy : list (list R)) (discount_factor : R)
    (W : list R) (s : nat) : result R :=
  row <-- index policy s ;;
  rfold (fun v (ap : nat * R) =>
           trans <-- transitions env s (fst ap) ;;
           rfold (fun v' (t : Transition) =>
                    let '(prob, next_state, reward, done) := t in
                    x <-- index W next_state ;;
                    Val (v' + snd ap * prob * (reward + discount_factor * x)))
                 trans v)
        (enumerate row) Szero.

(** A synchronous (Jacobi) sweep: every state is backed up from the frozen
    vector [V] of the previous sweep. *)
Definition jacobi_sweep (env : Env) (policy : list (list R))
    (discount_factor : R) (V : list R) : result (list R) :=
  rmap (backup env policy discount_factor V) (seq 0 (nS env)).

(** An in-place (Gauss-Seidel) sweep: state [s] is backed up from the
    vector that holds this sweep's values of the states below [s] and the
    previous sweep's values of the states from [s] on. *)
Definition inplace_sweep (env : Env) (policy : list (list R))
    (discount_factor : R) (V : list R) : result (list R) :=
  rfold (fun updated s =>
           v <-- backup env policy discount_factor (updated ++ skipn s V) s ;;
           Val (updated ++ [v]))
        (seq 0 (nS env)) [].

(** [delta]: the maximum over the states of [|v(s) - V_old(s)|], the new
    value against the value it replaces. *)
Definition delta_of (V_old V_new : list R) : R :=
  fold_left (fun d (on : R * R) => pymax d (Sabs (snd on - fst on)))
            (combine V_old V_new) Szero.

(** Sweeps repeated until one has [delta < theta]; the vector of that
    sweep is the answer. *)
Fixpoint iterate_sweeps (sweep : list R -> result (list R)) (theta : R)
    (fuel : nat) (V : list R) : result (list R) :=
  match fuel with
  | 0 => Timeout
  | S fuel' =>
      V' <-- sweep V ;;
      if delta_of V V' <? theta then Val V'
      else iterate_sweeps sweep theta fuel' V'
  end.

(** The reference synchronous evaluator of the specification. *)
Definition jacobi_eval (env : Env) (policy : list (list R))
    (discount_factor theta : R) (fuel : nat) : result (list R) :=
  iterate_sweeps (jacobi_sweep env policy discount_factor) theta fuel
                 (zeros (nS env)).

(** The reference in-place evaluator. *)
Definition inplace_eval (env : Env) (policy : list (list R))
    (discount_factor theta : R) (fuel : nat) : result (list R) :=
  iterate_sweeps (inplace_sweep env policy discount_factor) theta fuel
                 (zeros (nS env)).

(** The value vector after [k] sweeps from [V0]. *)
Fixpoint sweeps_from (sweep : list R -> result (list R)) (V0 : list R)
    (k : nat) : result (list R) :=
  match k with
  | 0 => Val V0
  | S k' => V <-- sweeps_from sweep V0 k' ;; sweep V
  end.

(** The value vector after [k] in-place sweeps from the all-zero vector. *)
Definition sweeps (env : Env) (policy : list (list R)) (discount_factor : R)
    (k : nat) : result (list R) :=
  sweeps_from (inplace_sweep env policy discount_factor) (zeros (nS env)) k.

(** [A(a)]: the sum over [(prob, next_state, reward, done)] in
    [env.P[s][a]] of [prob * (reward + discount_factor * V[next_state])]. *)
Definition action_value (env : Env) (discount_factor : R) (V : list R)
    (s a : nat) : result R :=
  trans <-- transitions env s a ;;
  rfold (fun acc (t : Transition) =>
           let '(prob, next_state, reward, done) := t in
           x <-- index V next_state ;;
           Val (acc + prob * (reward + discount_factor * x)))
        trans Szero.

(** The action-value vector of state [s]. *)
Definition action_values (env : Env) (discount_factor : R) (V : list R)
    (s : nat) : result (list R) :=
  rmap (action_value env discount_factor V s) (seq 0 (nA env)).

(** [best_a = np.argmax(action_values)] for state [s]. *)
Definition greedy_action (env : Env) (discount_factor : R) (V : list R)
    (s : nat) : result nat :=
  avs <-- action_values env discount_factor V s ;;
  argmax avs.

(** [old_action = np.argmax(policy[s])] *)
Definition row_action (policy : list (list R)) (s : nat) : result nat :=
  row <-- index policy s ;;
  argmax row.

Definition next_state_of (t : Transition) : nat :=
  let '(prob, next_state, reward, done) := t in next_state.

(** The inputs the code is meant for: at least one action, a transition
    list for every state and action, every [next_state] a state. *)
Definition well_formed_env (env : Env) : Prop :=
  0 < nA env /\
  forall s a, s < nS env -> a < nA env ->
    exists trans, P env s a = Some trans /\
                  Forall (fun t => next_state_of t < nS env) trans.

(** A [policy] of shape [[env.nS, env.nA]]. *)
Definition well_formed_policy (env : Env) (policy : list (list R)) : Prop :=
  length policy = nS env /\
  Forall (fun row => length row = nA env) policy.

(** The sum of a row. *)
Definition row_sum (row : list R) : R := fold_left Sadd row Szero.

(** The entries of [l] are numbers that [<=] puts in order: any two can
    be compared, so none is NaN, and [<=] is transitive among them. *)
Definition ordered_values (l : list R) : bool :=
  forallb (fun x => forallb (fun y => (x <=? y) || (y <=? x)) l) l
  && forallb (fun x =>
                forallb (fun y =>
                           forallb (fun z =>
                                      implb ((x <=? y) && (y <=? z))
                                            (x <=? z)) l) l) l.

(** [b] is the lowest-indexed maximiser of [l]: every entry is at most
    [l[b]] and [l[b]] is at most no entry before it. *)
Definition first_max (l : list R) (b : nat) : Prop :=
  exists y, nth_error l b = Some y /\
    forall a x, nth_error l a = Some x ->
      (x <=? y) = true /\ (a < b -> (y <=? x) = false).

(** A row with a single 1 at [b] and 0 everywhere else. *)
Definition one_hot (row : list R) (b : nat) : Prop :=
  nth_error row b = Some Sone /\
  forall a x, nth_error row a = Some x -> a <> b -> x = Szero.

(** [row] is the one-hot row of the greedy action of state [s]: its 1
    sits at the lowest-indexed maximiser [b] of the action values [A(a)],
    every other entry is 0, it has [env.nA] entries and they add up to 1. *)
Definition greedy_one_hot_row (env : Env) (discount_factor : R)
    (V : list R) (s : nat) (row : list R) : Prop :=
  exists avs b,
    action_values env discount_factor V s = Val avs /\
    (forall a x, nth_error avs a = Some x ->
       action_value env discount_factor V s a = Val x) /\
    first_max avs b /\
    one_hot row b /\
    length row = nA env /\
    row_sum row = Sone /\
    (forall a x, nth_error row a = Some x -> (x <> Szero <-> a = b)).

End PolicyIteration.

Arguments Env R : clear implicits.
Arguments Heap R : clear implicits.
Arguments Transition R : clear implicits.
Arguments M R A : clear implicits.

Notation "x <- m ;; k" := (bind m (fun x => k))
  (at level 61, m at next level, right associativity).
Notation "m ;;; k" := (bind m (fun _ => k))
  (at level 61, right associativity).

(** ** binary64 scalars: the numbers numpy computes with *)

(** A positive count as a binary64 number (exact below 2^53). *)
Fixpoint float_of_pos (p : positive) : float :=
  match p with
  | xH => 1%float
  | xO q => (2 * float_of_pos q)%float
  | xI q => (2 * float_of_pos q + 1)%float
  end.

Definition float_of_nat (n : nat) : float :=
  match N.of_nat n with
  | N0 => 0%float
  | Npos p => float_of_pos p
  end.

#[export] Instance Scalar_float : Scalar float := {
  Szero := 0%float;
  Sone := 1%float;
  Sadd := PrimFloat.add;
  Ssub := PrimFloat.sub;
  Smul := PrimFloat.mul;
  Sdiv := PrimFloat.div;
  Sabs := PrimFloat.abs;
  Sltb := PrimFloat.ltb;
  Sleb := PrimFloat.leb;
  Sof_nat := float_of_nat
}.

(** ** Rational scalars: exact arithmetic, kept in lowest terms

    They stand for the real numbers that the floating-point run
    approximates.  ([x / 0] is 0 here; the code divides only by [env.nA],
    and only to fill rows of that length.) *)

Definition Qltb (x y : Q) : bool :=
  match (x ?= y)%Q with
  | Lt => true
  | _ => false
  end.

#[export] Instance Scalar_Q : Scalar Q := {
  Szero := 0%Q;
  Sone := 1%Q;
  Sadd := fun x y => Qred (x + y)%Q;
  Ssub := fun x y => Qred (x - y)%Q;
  Smul := fun x y => Qred (x * y)%Q;
  Sdiv := fun x y => Qred (x / y)%Q;
  Sabs := fun x => Qred (Qabs x);
  Sltb := Qltb;
  Sleb := Qle_bool;
  Sof_nat := fun n => inject_Z (Z.of_nat n)
}.

(** ** Environments *)

Section Environments.

Context {R : Type} {SR : Scalar R}.

(** Three states, one action: state 0 moves to the absorbing state 2 for
    a reward of 1, state 1 moves to state 0 for nothing. *)
Definition chain_env : Env R :=
  mkEnv 3 1 (fun s a =>
    match s, a with
    | 0, 0 => Some [(Sone, 2, Sone, true)]
    | 1, 0 => Some [(Sone, 0, Szero, false)]
    | 2, 0 => Some [(Sone, 2, Szero, true)]
    | _, _ => None
    end).

(** Two states, two actions: from state 0 both actions end in the
    absorbing state 1, action 0 for a reward of 1 and action 1 for nothing. *)
Definition bandit_env : Env R :=
  mkEnv 2 2 (fun s a =>
    match s, a with
    | 0, 0 => Some [(Sone, 1, Sone, true)]
    | 0, 1 => Some [(Sone, 1, Szero, true)]
    | 1, 0 => Some [(Sone, 1, Szero, true)]
    | 1, 1 => Some [(Sone, 1, Szero, true)]
    | _, _ => None
    end).

(** One state with [n_a] actions, each a terminal self-loop of reward 0. *)
Definition loop_env (n_a : nat) : Env R :=
  mkEnv 1 n_a (fun s a =>
    if (s =? 0) && (a <? n_a) then Some [(Sone, 0, Szero, true)] else None).

Definition is_done (terminals : list nat) (s : nat) : bool :=
  existsb (Nat.eqb s) terminals.

(** Modelled from the spec: the environment [GridworldEnv] is imported
    from [lib.envs.gridworld] and is not part of the sources.  The
    specification describes a 4x4 deterministic absorbing grid, states
    indexed row-major, reward -1 per move and 0 in a terminal state; line
    123 of the source numbers the actions 0=up, 1=right, 2=down, 3=left.
    A move that would leave the grid stays in place; a terminal state
    loops on itself.  [terminals] lists the terminal states. *)
Definition gridworld_P (terminals : list nat) (s a : nat)
    : option (list (Transition R)) :=
  if (s <? 16) && (a <? 4) then
    if is_done terminals s then Some [(Sone, s, Szero, true)]
    else
      let y := s / 4 in
      let x := s mod 4 in
      let ns :=
        match a with
        | 0 => if y =? 0 then s else s - 4
        | 1 => if x =? 3 then s else s + 1
        | 2 => if y =? 3 then s else s + 4
        | _ => if x =? 0 then s else s - 1
        end in
      Some [(Sone, ns, Ssub Szero Sone, is_done terminals ns)]
  else None.

Definition gridworld (terminals : list nat) : Env R :=
  mkEnv 16 4 (gridworld_P terminals).

(** The heap on entry to [policy_improvement(env)]: no [policy] and no
    [V] yet. *)
Definition on_entry (env : Env R) : Heap R := mkHeap env [] [].

(** The heap when the loop of [policy_improvement(env)] is entered:
    [policy] is uniform (line 91). *)
Definition at_loop_start (env : Env R) : Heap R :=
  mkHeap env (uniform_policy (nS env) (nA env)) [].

End Environments.

(** The array [expected_v] of line 136. *)
Definition expected_v : list float :=
  [0; -1; -2; -3; -1; -2; -3; -2; -2; -3; -2; -1; -3; -2; -1; 0]%float.

(** Two arrays hold the same numbers. *)
Fixpoint same_floats (l1 l2 : list float) : bool :=
  match l1, l2 with
  | [], [] => true
  | x :: t1, y :: t2 => PrimFloat.eqb x y && same_floats t1 t2
  | _, _ => false
  end.

(** The bound [1.5 * 10**(-2)] of a comparison to 2 decimals. *)
#[warnings="-inexact-float"] Definition tolerance_2 : float :=
  (1.5 * 0.01)%float.

(** [np.testing.assert_array_almost_equal(v, expected, decimal=2)] of line
    137: same length and every [|expected - v|] below the bound. *)
Fixpoint almost_equal_2 (v expected : list float) : bool :=
  match v, expected with
  | [], [] => true
  | x :: v', e :: expected' =>
      (PrimFloat.ltb (PrimFloat.abs (e - x)) tolerance_2)
      && almost_equal_2 v' expected'
  | _, _ => false
  end.

(** * Properties *)

(** ** Arrays *)

Lemma list_set_app {A} (pre : list A) (y : A) (post : list A) (x : A) :
  list_set (pre ++ y :: post) (length pre) x = Some (pre ++ x :: post).
Proof.
  induction pre as [|z pre IH]; simpl.
  - reflexivity.
  - rewrite IH. reflexivity.
Qed.

Lemma nth_error_middle {A} (pre : list A) (y : A) (post : list A) :
  nth_error (pre ++ y :: post) (length pre) = Some y.
Proof.
  induction pre as [|z pre IH]; simpl; [reflexivity | exact IH].
Qed.

Lemma skipn_length_app {A} (pre post : list A) :
  skipn (length pre) (pre ++ post) = post.
Proof.
  induction pre as [|z pre IH]; simpl; [reflexivity | exact IH].
Qed.

Lemma list_set_length {A} (l : list A) (i : nat) (x : A) (l' : list A) :
  list_set l i x = Some l' -> length l' = length l.
Proof.
  revert i l'. induction l as [|y l IH]; intros [|i] l' H; simpl in H;
    try discriminate.
  - injection H as <-. reflexivity.
  - destruct (list_set l i x) as [t|] eqn:E; simpl in H; [|discriminate].
    injection H as <-. simpl. f_equal. eapply IH. exact E.
Qed.

Lemma list_set_same {A} (l : list A) (i : nat) (x : A) (l' : list A) :
  list_set l i x = Some l' -> nth_error l' i = Some x.
Proof.
  revert i l'. induction l as [|y l IH]; intros [|i] l' H; simpl in H;
    try discriminate.
  - injection H as <-. reflexivity.
  - destruct (list_set l i x) as [t|] eqn:E; simpl in H; [|discriminate].
    injection H as <-. simpl. eapply IH. exact E.
Qed.

Lemma list_set_other {A} (l : list A) (i j : nat) (x : A) (l' : list A) :
  list_set l i x = Some l' -> j <> i -> nth_error l' j = nth_error l j.
Proof.
  revert i j l'. induction l as [|y l IH]; intros [|i] [|j] l' H Hj;
    simpl in H; try discriminate; try congruence.
  - injection H as <-. reflexivity.
  - destruct (list_set l i x) as [t|] eqn:E; simpl in H; [|discriminate].
    injection H as <-. reflexivity.
  - destruct (list_set l i x) as [t|] eqn:E; simpl in H; [|discriminate].
    injection H as <-. simpl. eapply IH; [exact E | congruence].
Qed.

Lemma list_set_in_range {A} (l : list A) (i : nat) (x : A) :
  i < length l -> exists l', list_set l i x = Some l'.
Proof.
  revert i. induction l as [|y l IH]; intros [|i] H; simpl in *; try lia.
  - eexists. reflexivity.
  - destruct (IH i) as [t Ht]; [lia|]. rewrite Ht. eexists. reflexivity.
Qed.

(** ** Loops that only append *)

Lemma rfold_append {A B} (g : list B -> A -> result B) (l : list A) :
  forall acc new,
    rfold (fun acc x => y <-- g acc x ;; Val (acc ++ [y])) l acc = Val new ->
    exists tail, new = acc ++ tail /\ length tail = length l.
Proof.
  induction l as [|x l IH]; intros acc new H; simpl in H.
  - injection H as <-. exists []. rewrite app_nil_r. split; reflexivity.
  - destruct (g acc x) as [y| |]; simpl in H; try discriminate.
    destruct (IH _ _ H) as [tail [-> Hlen]].
    exists (y :: tail). rewrite <- app_assoc. simpl. split; [reflexivity|].
    now rewrite Hlen.
Qed.

Section Proofs.

Context {R : Type} {SR : Scalar R}.

Local Open Scope scalar_scope.

(** ** A loop body that leaves the heap alone *)

Lemma foldM_lift {A B} (body : B -> A -> M R B) (pure : B -> A -> result B)
    (h : Heap R) :
  (forall acc x, body acc x h = lift (pure acc x) h) ->
  forall l acc, foldM body l acc h = lift (rfold pure l acc) h.
Proof.
  intros Hbody. induction l as [|x l IH]; intros acc; simpl.
  - reflexivity.
  - unfold bind. rewrite Hbody. unfold lift at 1.
    destruct (pure acc x) as [b| |]; simpl; [apply IH | reflexivity..].
Qed.

(** ** policy_eval: the backup of one state *)

Lemma full_backup_spec (discount_factor : R) (s : nat) (h : Heap R) :
  full_backup discount_factor s h
  = lift (backup (h_env h) (h_policy h) discount_factor (h_V h) s) h.
Proof.
  unfold full_backup, backup, bind, policy_row, index.
  destruct (nth_error (h_policy h) s) as [row|]; simpl; [|reflexivity].
  apply foldM_lift. intros v [a action_prob].
  unfold backup_action, bind, env_P, transitions. simpl.
  destruct (P (h_env h) s a) as [trans|]; simpl; [|reflexivity].
  apply foldM_lift. intros v' [[[prob next_state] reward] done].
  unfold backup_step, bind, get_V, index, ret. simpl.
  destruct (nth_error (h_V h) next_state); reflexivity.
Qed.

Lemma eval_state_spec (discount_factor delta : R) (s : nat) (h : Heap R) :
  eval_state discount_factor delta s h
  = match backup (h_env h) (h_policy h) discount_factor (h_V h) s with
    | Val v =>
        match nth_error (h_V h) s, list_set (h_V h) s v with
        | Some old, Some V' =>
            Val (pymax delta (Sabs (v - old)),
                 mkHeap (h_env h) (h_policy h) V')
        | _, _ => Exn IndexError
        end
    | Exn e => Exn e
    | Timeout => Timeout
    end.
Proof.
  unfold eval_state, bind. rewrite full_backup_spec. unfold lift.
  destruct (backup _ _ _ _ _) as [v| |]; try reflexivity.
  unfold get_V, set_V.
  destruct (nth_error (h_V h) s) as [old|]; [|reflexivity].
  destruct (list_set (h_V h) s v); reflexivity.
Qed.



(** ** policy_eval: one sweep *)

(** The states from [length updated] on, when the states below already
    hold their new values [updated] and [rest] still holds the old ones. *)
Lemma eval_states_spec (discount_factor : R) (env : Env R)
    (policy : list (list R)) :
  forall (rest updated old : list R) (delta : R),
    length old = length updated ->
    foldM (eval_state discount_factor)
          (seq (length updated) (length rest)) delta
          (mkHeap env policy (updated ++ rest))
    = match rfold (fun updated s =>
                     v <-- backup env policy discount_factor
                                  (updated ++ skipn s (old ++ rest)) s ;;
                     Val (updated ++ [v]))
                  (seq (length updated) (length rest)) updated with
      | Val new =>
          Val (fold_left (fun d (on : R * R) =>
                            pymax d (Sabs (snd on - fst on)))
                         (combine rest (skipn (length updated) new)) delta,
               mkHeap env policy new)
      | Exn e => Exn e
      | Timeout => Timeout
      end.
Proof.
  induction rest as [|r rest IH]; intros updated old delta Hlen.
  - simpl. rewrite app_nil_r. reflexivity.
  - cbn [length seq foldM rfold]. unfold bind at 1.
    rewrite eval_state_spec. cbn [h_env h_policy h_V].
    assert (Hskip : skipn (length updated) (old ++ r :: rest) = r :: rest)
      by (rewrite <- Hlen; apply skipn_length_app).
    rewrite Hskip.
    destruct (backup env policy discount_factor (updated ++ r :: rest)
                     (length updated)) as [v| |]; cbn [rbind];
      try reflexivity.
    rewrite nth_error_middle, list_set_app.
    pose proof (IH (updated ++ [v]) (old ++ [r])
                   (pymax delta (Sabs (v - r)))) as IH'.
    rewrite !length_app in IH'. cbn [length] in IH'.
    rewrite !Nat.add_1_r in IH'. rewrite <- !app_assoc in IH'.
    cbn [app] in IH'. rewrite IH' by (f_equal; exact Hlen).
    match goal with
    | |- match ?r with _ => _ end = _ => destruct r as [new| |] eqn:E
    end; try reflexivity.
    apply (rfold_append
             (fun updated s =>
                backup env policy discount_factor
                       (updated ++ skipn s (old ++ r :: rest)) s)) in E.
    destruct E as [tail [-> _]].
    rewrite <- app_assoc. cbn [app].
    rewrite (skipn_length_app updated (v :: tail)).
    assert (Htail : skipn (S (length updated)) (updated ++ v :: tail) = tail).
    { replace (S (length updated)) with (length (updated ++ [v]))
        by (rewrite length_app; simpl; lia).
      replace (updated ++ v :: tail) with ((updated ++ [v]) ++ tail)
        by (rewrite <- app_assoc; reflexivity).
      apply skipn_length_app. }
    rewrite Htail. reflexivity.
Qed.

Lemma eval_sweep_spec (discount_factor : R) (env : Env R)
    (policy : list (list R)) (V : list R) :
  length V = nS env ->
  eval_sweep discount_factor (mkHeap env policy V)
  = match inplace_sweep env policy discount_factor V with
    | Val new => Val (delta_of V new, mkHeap env policy new)
    | Exn e => Exn e
    | Timeout => Timeout
    end.
Proof.
  intros Hlen. unfold eval_sweep, bind, env_nS, inplace_sweep, delta_of.
  cbn [h_env]. rewrite <- Hlen.
  exact (eval_states_spec discount_factor env policy V [] [] Szero eq_refl).
Qed.

Lemma inplace_sweep_length (env : Env R) (policy : list (list R))
    (discount_factor : R) (V new : list R) :
  inplace_sweep env policy discount_factor V = Val new ->
  length new = nS env.
Proof.
  unfold inplace_sweep. intros H.
  apply (rfold_append
           (fun updated s =>
              backup env policy discount_factor (updated ++ skipn s V) s))
    in H.
  destruct H as [tail [-> Hlen]]. simpl. now rewrite Hlen, length_seq.
Qed.


(** ** policy_eval: the loop *)

Lemma eval_loop_spec (discount_factor theta : R) (env : Env R)
    (policy : list (list R)) :
  forall (fuel : nat) (V : list R),
    length V = nS env ->
    eval_loop discount_factor theta fuel (mkHeap env policy V)
    = match iterate_sweeps (inplace_sweep env policy discount_factor)
                           theta fuel V with
      | Val new => Val (tt, mkHeap env policy new)
      | Exn e => Exn e
      | Timeout => Timeout
      end.
Proof.
  induction fuel as [|fuel IH]; intros V Hlen; simpl.
  - reflexivity.
  - unfold bind. rewrite eval_sweep_spec by exact Hlen.
    destruct (inplace_sweep env policy discount_factor V) as [new| |] eqn:E;
      simpl; try reflexivity.
    destruct (delta_of V new <? theta); [reflexivity|].
    apply IH. eapply inplace_sweep_length. exact E.
Qed.

Lemma zeros_length (n : nat) : length (zeros (R := R) n) = n.
Proof. apply repeat_length. Qed.

(** [policy_eval] returns what the in-place evaluator computes from
    [env] and [policy], and leaves [env] and [policy] as they were. *)
Lemma policy_eval_spec (discount_factor theta : R) (fuel : nat) (h : Heap R) :
  policy_eval discount_factor theta fuel h
  = match inplace_eval (h_env h) (h_policy h) discount_factor theta fuel with
    | Val V => Val (V, mkHeap (h_env h) (h_policy h) V)
    | Exn e => Exn e
    | Timeout => Timeout
    end.
Proof.
  unfold policy_eval, bind, env_nS, new_V, copy_V, inplace_eval.
  rewrite eval_loop_spec by apply zeros_length.
  destruct (iterate_sweeps _ _ _ _); reflexivity.
Qed.

Lemma sweeps_from_front (sweep : list R -> result (list R)) (V0 : list R) :
  forall k,
    sweeps_from sweep V0 (S k)
    = (V1 <-- sweep V0 ;; sweeps_from sweep V1 k).
Proof.
  induction k as [|k IH].
  - simpl. destruct (sweep V0); reflexivity.
  - change (sweeps_from sweep V0 (S (S k)))
      with (V <-- sweeps_from sweep V0 (S k) ;; sweep V).
    rewrite IH. destruct (sweep V0) as [V1| |]; reflexivity.
Qed.

(** The loop stops at the first sweep whose [delta] is below [theta] and
    answers with the vector of that sweep. *)
Lemma iterate_sweeps_spec (sweep : list R -> result (list R)) (theta : R) :
  forall (fuel : nat) (V0 V : list R),
    iterate_sweeps sweep theta fuel V0 = Val V <->
    exists k V_old,
      k < fuel /\
      sweeps_from sweep V0 k = Val V_old /\
      sweep V_old = Val V /\
      (delta_of V_old V <? theta) = true /\
      forall j, j < k ->
        exists Vj Vj',
          sweeps_from sweep V0 j = Val Vj /\
          sweeps_from sweep V0 (S j) = Val Vj' /\
          (delta_of Vj Vj' <? theta) = false.
Proof.
  induction fuel as [|fuel IH]; intros V0 V; split.
  - simpl. discriminate.
  - intros [k [_ [Hk _]]]. lia.
  - simpl. destruct (sweep V0) as [V1| |] eqn:E1; simpl; try discriminate.
    destruct (delta_of V0 V1 <? theta) eqn:Ed.
    + intros [= <-]. exists 0, V0. repeat split; try assumption; lia.
    + intros H. apply IH in H. destruct H as [k [V_old [Hk [Hs [Hv [Hd Hj]]]]]].
      exists (S k), V_old. repeat split; try assumption; try lia.
      * rewrite sweeps_from_front, E1. exact Hs.
      * intros [|j] Hlt.
        -- exists V0, V1. simpl. rewrite E1. repeat split. exact Ed.
        -- destruct (Hj j) as [Vj [Vj' [H1 [H2 H3]]]]; [lia|].
           exists Vj, Vj'. rewrite !sweeps_from_front, E1. simpl.
           repeat split; assumption.
  - intros [k [V_old [Hk [Hs [Hv [Hd Hj]]]]]]. simpl.
    destruct k as [|k].
    + simpl in Hs. injection Hs as <-. rewrite Hv. simpl. rewrite Hd.
      reflexivity.
    + destruct (Hj 0) as [Vj [Vj' [H1 [H2 H3]]]]; [lia|].
      simpl in H1. injection H1 as <-. simpl in H2. rewrite H2. simpl.
      rewrite H3. apply IH. exists k, V_old.
      rewrite sweeps_from_front, H2 in Hs. simpl in Hs.
      repeat split; try assumption; try lia.
      intros j Hlt. destruct (Hj (S j)) as [Wj [Wj' [G1 [G2 G3]]]]; [lia|].
      rewrite !sweeps_from_front, H2 in G1, G2. simpl in G1, G2.
      exists Wj, Wj'. repeat split; assumption.
Qed.


(** ** one_step_lookahead *)

Lemma lookahead_steps_spec (discount_factor : R) (V : list R)
    (pre post : list R) (h : Heap R) :
  forall (trans : list (Transition R)) (c : R),
    foldM (lookahead_step discount_factor V (length pre)) trans
          (pre ++ c :: post) h
    = lift (c' <-- rfold (fun acc (t : Transition R) =>
                            let '(prob, next_state, reward, done) := t in
                            x <-- index V next_state ;;
                            Val (acc + prob
                                       * (reward + discount_factor * x)))
                         trans c ;;
            Val (pre ++ c' :: post)) h.
Proof.
  induction trans as [|[[[prob next_state] reward] done] trans IH];
    intros c; simpl.
  - reflexivity.
  - unfold bind at 1. unfold lookahead_step, bind, lift, index, index_set.
    destruct (nth_error V next_state) as [x|]; simpl; [|reflexivity].
    rewrite nth_error_middle, list_set_app. apply IH.
Qed.

Lemma lookahead_actions_spec (discount_factor : R) (V : list R) (s : nat)
    (h : Heap R) :
  forall (k : nat) (filled : list R),
    foldM (lookahead_action discount_factor V s)
          (seq (length filled) k) (filled ++ zeros k) h
    = lift (rfold (fun acc a =>
                     y <-- action_value (h_env h) discount_factor V s a ;;
                     Val (acc ++ [y]))
                  (seq (length filled) k) filled) h.
Proof.
  induction k as [|k IH]; intros filled.
  - simpl. rewrite app_nil_r. reflexivity.
  - cbn [seq foldM rfold zeros repeat]. unfold bind at 1.
    unfold lookahead_action at 1. unfold bind, env_P, action_value,
      transitions.
    destruct (P (h_env h) s (length filled)) as [trans|]; simpl;
      [|reflexivity].
    fold (zeros (R := R) k).
    rewrite lookahead_steps_spec.
    destruct (rfold _ trans Szero) as [c'| |]; simpl; try reflexivity.
    pose proof (IH (filled ++ [c'])) as IH'.
    rewrite length_app, Nat.add_1_r, <- app_assoc in IH'. exact IH'.
Qed.

Lemma one_step_lookahead_spec (discount_factor : R) (s : nat) (V : list R)
    (h : Heap R) :
  one_step_lookahead discount_factor s V h
  = lift (action_values (h_env h) discount_factor V s) h.
Proof.
  unfold one_step_lookahead, bind, env_nA, action_values, rmap.
  exact (lookahead_actions_spec discount_factor V s h (nA (h_env h)) []).
Qed.

(** ** The improvement of one row *)

Lemma improve_state_spec (discount_factor : R) (V : list R) (stable : bool)
    (s : nat) (h : Heap R) :
  improve_state discount_factor V stable s h
  = match (old_action <-- row_action (h_policy h) s ;;
           best_a <-- greedy_action (h_env h) discount_factor V s ;;
           p <-- index_set (h_policy h) s (eye_row (nA (h_env h)) best_a) ;;
           Val (if negb (old_action =? best_a)%nat then false else stable,
                p)) with
    | Val (stable', p) => Val (stable', mkHeap (h_env h) p (h_V h))
    | Exn e => Exn e
    | Timeout => Timeout
    end.
Proof.
  unfold improve_state, bind, policy_row, row_action, greedy_action, index.
  destruct (nth_error (h_policy h) s) as [row|]; simpl; [|reflexivity].
  unfold lift at 1. destruct (argmax row) as [o| |]; simpl; try reflexivity.
  rewrite one_step_lookahead_spec. unfold lift at 1.
  destruct (action_values _ _ _ _) as [avs| |]; simpl; try reflexivity.
  unfold lift at 1. destruct (argmax avs) as [b| |]; simpl; try reflexivity.
  unfold env_nA, set_policy_row, index_set. simpl.
  destruct (list_set _ _ _); reflexivity.
Qed.


Lemma row_action_ext (p q : list (list R)) (i : nat) :
  nth_error p i = nth_error q i -> row_action p i = row_action q i.
Proof. unfold row_action, index. intros ->. reflexivity. Qed.

(** ** The improvement of every row *)

(** Rows [s .. s+k-1] are replaced by the one-hot row of their greedy
    action, the other rows stay, and the flag survives only if every old
    greedy action equals the new one. *)
Lemma improve_states_inv (discount_factor : R) (V : list R) :
  forall (k s : nat) (stable : bool) (h : Heap R) (stable' : bool)
         (h' : Heap R),
    foldM (improve_state discount_factor V) (seq s k) stable h
    = Val (stable', h') ->
    h_env h' = h_env h /\ h_V h' = h_V h /\
    length (h_policy h') = length (h_policy h) /\
    (forall i, s <= i < s + k ->
       exists o b,
         row_action (h_policy h) i = Val o /\
         greedy_action (h_env h) discount_factor V i = Val b /\
         nth_error (h_policy h') i = Some (eye_row (nA (h_env h)) b)) /\
    (forall i, i < s \/ s + k <= i ->
       nth_error (h_policy h') i = nth_error (h_policy h) i) /\
    (stable' = true <->
     stable = true /\
     forall i o b, s <= i < s + k ->
       row_action (h_policy h) i = Val o ->
       greedy_action (h_env h) discount_factor V i = Val b -> o = b).
Proof.
  induction k as [|k IH]; intros s stable h stable' h' H.
  - simpl in H. injection H as <- <-.
    repeat split; try reflexivity; try tauto; try (intros; lia).
  - cbn [seq foldM] in H. unfold bind in H.
    rewrite improve_state_spec in H.
    destruct (row_action (h_policy h) s) as [o| |] eqn:Eo; simpl in H;
      try discriminate.
    destruct (greedy_action (h_env h) discount_factor V s) as [b| |] eqn:Eb;
      simpl in H; try discriminate.
    unfold index_set in H.
    destruct (list_set (h_policy h) s (eye_row (nA (h_env h)) b))
      as [p|] eqn:Ep; simpl in H; try discriminate.
    apply IH in H. cbn [h_env h_policy h_V] in H.
    destruct H as [Henv [HV [Hlen [Hnew [Hold Hst]]]]].
    assert (Hp : forall i, i <> s -> nth_error p i = nth_error (h_policy h) i)
      by (intros i Hi; eapply list_set_other; eassumption).
    split; [exact Henv|]. split; [exact HV|].
    split; [rewrite Hlen; eapply list_set_length; exact Ep|].
    split; [|split].
    + intros i Hi. destruct (Nat.eq_dec i s) as [->|Hne].
      * exists o, b. repeat split; try assumption.
        rewrite Hold by lia. eapply list_set_same. exact Ep.
      * destruct (Hnew i) as [o' [b' [H1 [H2 H3]]]]; [lia|].
        exists o', b'. repeat split; try assumption.
        rewrite <- H1. symmetry. apply row_action_ext. apply Hp. exact Hne.
    + intros i Hi. rewrite Hold by lia. apply Hp. lia.
    + rewrite Hst. split.
      * intros [Hs Hall].
        destruct (Nat.eqb_spec o b) as [Hob|Hob]; simpl in Hs;
          [|discriminate].
        split; [exact Hs|]. intros i o' b' Hi Ho' Hb'.
        destruct (Nat.eq_dec i s) as [->|Hne].
        -- congruence.
        -- apply (Hall i o' b'); [lia| |exact Hb'].
           rewrite <- Ho'. apply row_action_ext. apply Hp. exact Hne.
      * intros [Hs Hall].
        assert (Hob : o = b) by (apply (Hall s); [lia|assumption..]).
        split.
        -- destruct (Nat.eqb_spec o b); [exact Hs | contradiction].
        -- intros i o' b' Hi Ho' Hb'. apply (Hall i); [lia| |exact Hb'].
           rewrite <- Ho'. symmetry. apply row_action_ext. apply Hp. lia.
Qed.

Lemma improve_inv (discount_factor : R) (V : list R) (h : Heap R)
    (stable : bool) (h' : Heap R) :
  improve discount_factor V h = Val (stable, h') ->
  h_env h' = h_env h /\ h_V h' = h_V h /\
  length (h_policy h') = length (h_policy h) /\
  (forall s, s < nS (h_env h) ->
     exists o b,
       row_action (h_policy h) s = Val o /\
       greedy_action (h_env h) discount_factor V s = Val b /\
       nth_error (h_policy h') s = Some (eye_row (nA (h_env h)) b)) /\
  (forall s, nS (h_env h) <= s ->
     nth_error (h_policy h') s = nth_error (h_policy h) s) /\
  (stable = true <->
   forall s o b, s < nS (h_env h) ->
     row_action (h_policy h) s = Val o ->
     greedy_action (h_env h) discount_factor V s = Val b -> o = b).
Proof.
  unfold improve, bind, env_nS. intros H.
  apply improve_states_inv in H.
  destruct H as [Henv [HV [Hlen [Hnew [Hold Hst]]]]].
  repeat split; try assumption.
  - intros s Hs. apply Hnew. lia.
  - intros s Hs. apply Hold. lia.
  - intros Hs s o b Hlt. apply Hst; [exact Hs | lia].
  - intros Hall. apply Hst. split; [reflexivity|].
    intros i o b Hi. apply Hall. lia.
Qed.


(** ** Comprehensions *)

Lemma rmap_inv_from {A B} (f : A -> result B) :
  forall (l : list A) (acc ys : list B),
    rfold (fun acc x => y <-- f x ;; Val (acc ++ [y])) l acc = Val ys ->
    exists tail, ys = acc ++ tail /\ Forall2 (fun x y => f x = Val y) l tail.
Proof.
  induction l as [|x l IH]; intros acc ys H; simpl in H.
  - injection H as <-. exists []. rewrite app_nil_r. split; constructor.
  - destruct (f x) as [y| |] eqn:E; simpl in H; try discriminate.
    destruct (IH _ _ H) as [tail [-> Hall]].
    exists (y :: tail). rewrite <- app_assoc. split; [reflexivity|].
    constructor; assumption.
Qed.

Lemma rmap_inv {A B} (f : A -> result B) (l : list A) (ys : list B) :
  rmap f l = Val ys -> Forall2 (fun x y => f x = Val y) l ys.
Proof.
  unfold rmap. intros H. apply rmap_inv_from in H.
  destruct H as [tail [-> Hall]]. exact Hall.
Qed.

Lemma rmap_total_from {A B} (f : A -> result B) :
  forall (l : list A) (acc : list B),
    (forall x, In x l -> exists y, f x = Val y) ->
    exists ys, rfold (fun acc x => y <-- f x ;; Val (acc ++ [y])) l acc
               = Val ys.
Proof.
  induction l as [|x l IH]; intros acc H; simpl.
  - eexists. reflexivity.
  - destruct (H x) as [y Hy]; [left; reflexivity|]. rewrite Hy. simpl.
    apply IH. intros z Hz. apply H. right. exact Hz.
Qed.

Lemma Forall2_nth_error_l {A B} (P : A -> B -> Prop) (l : list A)
    (l' : list B) :
  Forall2 P l l' ->
  forall i y, nth_error l' i = Some y ->
    exists x, nth_error l i = Some x /\ P x y.
Proof.
  induction 1 as [|x y l l' Hxy _ IH]; intros [|i] z Hz; simpl in Hz;
    try discriminate.
  - injection Hz as <-. exists x. split; [reflexivity | exact Hxy].
  - apply IH. exact Hz.
Qed.

Lemma action_values_inv (env : Env R) (discount_factor : R) (V : list R)
    (s : nat) (avs : list R) :
  action_values env discount_factor V s = Val avs ->
  length avs = nA env /\
  forall a x, nth_error avs a = Some x ->
    a < nA env /\ action_value env discount_factor V s a = Val x.
Proof.
  unfold action_values. intros H. apply rmap_inv in H. split.
  - apply Forall2_length in H. rewrite length_seq in H. symmetry. exact H.
  - intros a x Hx.
    destruct (Forall2_nth_error_l H _ Hx) as [a' [Ha' Hv]].
    assert (Hlt : a < nA env).
    { assert (Hs : nth_error (seq 0 (nA env)) a <> None) by congruence.
      apply nth_error_Some in Hs. now rewrite length_seq in Hs. }
    rewrite nth_error_seq in Ha'.
    destruct (Nat.ltb_spec a (nA env)); [|lia].
    injection Ha' as <-. split; assumption.
Qed.

(** ** np.argmax *)

Lemma argmax_from_bound :
  forall (l : list R) (i best : nat) (bestv : R),
    best < i -> argmax_from l i best bestv < i + length l.
Proof.
  induction l as [|x l IH]; intros i best bestv Hb; simpl.
  - lia.
  - destruct (x <=? bestv).
    + specialize (IH (S i) best bestv). lia.
    + destruct (is_nan x); [lia|]. specialize (IH (S i) i x). lia.
Qed.

Lemma argmax_bound (l : list R) (b : nat) :
  argmax l = Val b -> b < length l.
Proof.
  destruct l as [|x l]; simpl; [discriminate|].
  destruct (is_nan x); intros [= <-]; [lia|].
  pose proof (argmax_from_bound l (i := 1) (best := 0) x). lia.
Qed.

Lemma greedy_action_bound (env : Env R) (discount_factor : R) (V : list R)
    (s b : nat) :
  greedy_action env discount_factor V s = Val b -> b < nA env.
Proof.
  unfold greedy_action.
  destruct (action_values env discount_factor V s) as [avs| |] eqn:E;
    simpl; try discriminate.
  intros H. apply argmax_bound in H.
  apply action_values_inv in E. destruct E as [<- _]. exact H.
Qed.


(** ** One-hot rows *)

Lemma eye_row_length (n b : nat) : length (eye_row (R := R) n b) = n.
Proof. unfold eye_row. now rewrite length_map, length_seq. Qed.

Lemma nth_error_eye_row (n b a : nat) (x : R) :
  nth_error (eye_row n b) a = Some x ->
  a < n /\ x = if (a =? b)%nat then Sone else Szero.
Proof.
  unfold eye_row. rewrite nth_error_map, nth_error_seq.
  destruct (Nat.ltb_spec a n); simpl; [|discriminate].
  intros [= <-]. split; [assumption | reflexivity].
Qed.

Lemma eye_row_one_hot (n b : nat) : b < n -> one_hot (eye_row (R := R) n b) b.
Proof.
  intros Hb. split.
  - unfold eye_row. rewrite nth_error_map, nth_error_seq.
    destruct (Nat.ltb_spec b n); [|lia]. simpl. now rewrite Nat.eqb_refl.
  - intros a x Hx Hne. apply nth_error_eye_row in Hx. destruct Hx as [_ ->].
    destruct (Nat.eqb_spec a b); [contradiction | reflexivity].
Qed.

Section ZeroOne.

(** What the code needs of 0 and 1 for a one-hot row to read back. *)
Hypothesis zero_le_zero : (Szero <=? Szero) = true.
Hypothesis one_le_one : (Sone <=? Sone) = true.
Hypothesis one_le_zero : (Sone <=? Szero) = false.
Hypothesis zero_le_one : (Szero <=? Sone) = true.

Lemma argmax_from_after_one (b : nat) :
  forall (k i : nat),
    b < i ->
    argmax_from (map (fun j => if (j =? b)%nat then Sone else Szero)
                     (seq i k)) i b Sone = b.
Proof.
  induction k as [|k IH]; intros i Hi; simpl.
  - reflexivity.
  - destruct (Nat.eqb_spec i b); [lia|]. rewrite zero_le_one.
    apply IH. lia.
Qed.

Lemma argmax_from_before_one (b : nat) :
  forall (k i : nat),
    0 < i -> i <= b < i + k ->
    argmax_from (map (fun j => if (j =? b)%nat then Sone else Szero)
                     (seq i k)) i 0 Szero = b.
Proof.
  induction k as [|k IH]; intros i Hi Hb; simpl.
  - lia.
  - destruct (Nat.eqb_spec i b) as [->|Hne].
    + rewrite one_le_zero. unfold is_nan. rewrite one_le_one. cbn [negb].
      apply argmax_from_after_one. lia.
    + rewrite zero_le_zero. apply IH; lia.
Qed.

(** The greedy action of a one-hot row is the place of its 1. *)
Lemma argmax_eye_row (n b : nat) :
  b < n -> argmax (eye_row n b) = Val b.
Proof.
  intros Hb. unfold eye_row. destruct n as [|n]; [lia|].
  cbn [seq map argmax].
  destruct (Nat.eqb_spec 0 b) as [<-|Hne].
  - unfold is_nan. rewrite one_le_one. cbn [negb]. f_equal.
    apply argmax_from_after_one. lia.
  - unfold is_nan. rewrite zero_le_zero. cbn [negb]. f_equal.
    apply argmax_from_before_one; lia.
Qed.

End ZeroOne.

Section RowSum.

Hypothesis zero_plus_zero : Szero + Szero = Szero.
Hypothesis zero_plus_one : Szero + Sone = Sone.
Hypothesis one_plus_zero : Sone + Szero = Sone.

Lemma sum_after_one (b : nat) :
  forall (k i : nat),
    b < i ->
    fold_left Sadd (map (fun j => if (j =? b)%nat then Sone else Szero)
                        (seq i k)) Sone = Sone.
Proof.
  induction k as [|k IH]; intros i Hi; simpl.
  - reflexivity.
  - destruct (Nat.eqb_spec i b); [lia|]. rewrite one_plus_zero.
    apply IH. lia.
Qed.

Lemma sum_before_one (b : nat) :
  forall (k i : nat),
    i <= b < i + k ->
    fold_left Sadd (map (fun j => if (j =? b)%nat then Sone else Szero)
                        (seq i k)) Szero = Sone.
Proof.
  induction k as [|k IH]; intros i Hb; simpl.
  - lia.
  - destruct (Nat.eqb_spec i b) as [->|Hne].
    + rewrite zero_plus_one. apply sum_after_one. lia.
    + rewrite zero_plus_zero. apply IH. lia.
Qed.

Lemma row_sum_eye_row (n b : nat) : b < n -> row_sum (eye_row n b) = Sone.
Proof.
  intros Hb. unfold row_sum, eye_row. apply sum_before_one. lia.
Qed.

End RowSum.

(** ** First maximum *)

Lemma ordered_values_spec (l : list R) :
  ordered_values l = true ->
  (forall x y, In x l -> In y l ->
     (x <=? y) = true \/ (y <=? x) = true) /\
  (forall x y z, In x l -> In y l -> In z l ->
     (x <=? y) = true -> (y <=? z) = true -> (x <=? z) = true).
Proof.
  unfold ordered_values. intros H. apply andb_true_iff in H.
  destruct H as [Htot Htrans]. rewrite forallb_forall in Htot, Htrans.
  split.
  - intros x y Hx Hy. specialize (Htot x Hx). rewrite forallb_forall in Htot.
    apply orb_true_iff. apply Htot. exact Hy.
  - intros x y z Hx Hy Hz Hxy Hyz. specialize (Htrans x Hx).
    rewrite forallb_forall in Htrans. specialize (Htrans y Hy).
    rewrite forallb_forall in Htrans. specialize (Htrans z Hz).
    rewrite Hxy, Hyz in Htrans. exact Htrans.
Qed.

Section FirstMax.

Variable L : list R.

Hypothesis leb_total : forall x y, In x L -> In y L ->
  (x <=? y) = true \/ (y <=? x) = true.
Hypothesis leb_trans : forall x y z, In x L -> In y L -> In z L ->
  (x <=? y) = true -> (y <=? z) = true -> (x <=? z) = true.

Lemma argmax_from_first_max :
  forall (l pre : list R) (best : nat) (bestv : R),
    pre ++ l = L ->
    nth_error pre best = Some bestv ->
    (forall a x, nth_error pre a = Some x ->
       (x <=? bestv) = true /\ (a < best -> (bestv <=? x) = false)) ->
    first_max L (argmax_from l (length pre) best bestv).
Proof.
  induction l as [|x l IH]; intros pre best bestv HL Hbest Hpre.
  - simpl. rewrite app_nil_r in HL. subst pre.
    exists bestv. split; assumption.
  - simpl.
    assert (Hlt : best < length pre)
      by (apply nth_error_Some; congruence).
    assert (Hin : forall a x', nth_error pre a = Some x' -> In x' L).
    { intros a x' Hx'. rewrite <- HL. apply in_or_app. left.
      eapply nth_error_In. exact Hx'. }
    assert (Hx : In x L).
    { rewrite <- HL. apply in_or_app. right. left. reflexivity. }
    assert (Hb : In bestv L) by (eapply Hin; exact Hbest).
    assert (HL' : (pre ++ [x]) ++ l = L)
      by (rewrite <- app_assoc; exact HL).
    replace (S (length pre)) with (length (pre ++ [x]))
      by (rewrite length_app; simpl; lia).
    destruct (x <=? bestv) eqn:E.
    + apply IH; [exact HL'| |].
      * rewrite nth_error_app1 by exact Hlt. exact Hbest.
      * intros a x' Hx'.
        destruct (Nat.lt_ge_cases a (length pre)) as [Ha|Ha].
        -- rewrite nth_error_app1 in Hx' by exact Ha. apply Hpre. exact Hx'.
        -- rewrite nth_error_app2 in Hx' by exact Ha.
           destruct (a - length pre)%nat as [|d] eqn:Ed; simpl in Hx'.
           ++ injection Hx' as <-. split; [exact E | lia].
           ++ destruct d; discriminate.
    + assert (Hxx : (x <=? x) = true) by (destruct (leb_total x x Hx Hx); assumption).
      unfold is_nan. rewrite Hxx. cbn [negb].
      assert (Hbx : (bestv <=? x) = true)
        by (destruct (leb_total bestv x Hb Hx) as [H|H]; congruence).
      apply IH; [exact HL'| |].
      * rewrite nth_error_app2 by lia. now rewrite Nat.sub_diag.
      * intros a x' Hx'.
        destruct (Nat.lt_ge_cases a (length pre)) as [Ha|Ha].
        -- rewrite nth_error_app1 in Hx' by exact Ha.
           destruct (Hpre a x' Hx') as [H1 _].
           pose proof (Hin a x' Hx') as Hx'in. split.
           ++ exact (leb_trans x' bestv x Hx'in Hb Hx H1 Hbx).
           ++ intros _. destruct (x <=? x') eqn:E'; [|reflexivity].
              rewrite (leb_trans x x' bestv Hx Hx'in Hb E' H1) in E.
              discriminate.
        -- rewrite nth_error_app2 in Hx' by exact Ha.
           destruct (a - length pre)%nat as [|d] eqn:Ed; simpl in Hx'.
           ++ injection Hx' as <-. split; [exact Hxx | lia].
           ++ destruct d; discriminate.
Qed.

End FirstMax.

(** On numbers that [<=] puts in order, [np.argmax] answers with the
    lowest-indexed maximiser. *)
Lemma argmax_first_max (l : list R) (b : nat) :
  ordered_values l = true -> argmax l = Val b -> first_max l b.
Proof.
  intros Hord. apply ordered_values_spec in Hord.
  destruct Hord as [Htot Htrans].
  destruct l as [|x l]; simpl; [discriminate|].
  assert (Hxx : (x <=? x) = true).
  { destruct (Htot x x) as [H|H]; try assumption; left; reflexivity. }
  unfold is_nan. rewrite Hxx. cbn [negb]. intros [= <-].
  apply (@argmax_from_first_max (x :: l) Htot Htrans l [x] 0 x).
  - reflexivity.
  - reflexivity.
  - intros [|a] x' Hx'; simpl in Hx'.
    + injection Hx' as <-. split; [exact Hxx | lia].
    + destruct a; discriminate.
Qed.

(** ** The improvement never fails on well-formed inputs *)

Lemma action_value_total (env : Env R) (discount_factor : R) (V : list R)
    (s a : nat) :
  well_formed_env env -> length V = nS env ->
  s < nS env -> a < nA env ->
  exists x, action_value env discount_factor V s a = Val x.
Proof.
  intros [_ Hwf] HV Hs Ha. destruct (Hwf s a Hs Ha) as [trans [HP Hall]].
  unfold action_value, transitions. rewrite HP. simpl. clear HP.
  generalize (Szero (R := R)) as acc. induction Hall as [|t trans Ht _ IH];
    intros acc; simpl.
  - eexists. reflexivity.
  - destruct t as [[[prob next_state] reward] done]. simpl in Ht.
    unfold index at 1. destruct (nth_error V next_state) as [x|] eqn:E.
    + simpl. apply IH.
    + apply nth_error_None in E. lia.
Qed.

Lemma greedy_action_total (env : Env R) (discount_factor : R) (V : list R)
    (s : nat) :
  well_formed_env env -> length V = nS env -> s < nS env ->
  exists b, greedy_action env discount_factor V s = Val b.
Proof.
  intros Hwf HV Hs. unfold greedy_action, action_values, rmap.
  destruct (rmap_total_from (action_value env discount_factor V s)
              (seq 0 (nA env)) []) as [avs Havs].
  { intros a Ha. apply in_seq in Ha.
    apply action_value_total; try assumption. lia. }
  rewrite Havs. simpl.
  pose proof (action_values_inv env discount_factor V s Havs) as [Hlen _].
  destruct Hwf as [HnA _].
  destruct avs as [|x avs]; simpl in *; [lia|].
  destruct (is_nan x); eexists; reflexivity.
Qed.

Lemma row_action_total (env : Env R) (policy : list (list R)) (s : nat) :
  well_formed_env env -> well_formed_policy env policy -> s < nS env ->
  exists o, row_action policy s = Val o.
Proof.
  intros [HnA _] [Hlen Hrows] Hs. unfold row_action, index.
  destruct (nth_error policy s) as [row|] eqn:E.
  - simpl. rewrite Forall_forall in Hrows.
    specialize (Hrows row (nth_error_In _ _ E)).
    destruct row as [|x row]; simpl in *; [lia|].
    destruct (is_nan x); eexists; reflexivity.
  - apply nth_error_None in E. lia.
Qed.

Lemma improve_states_total (discount_factor : R) (V : list R) :
  forall (k s : nat) (stable : bool) (h : Heap R),
    s + k <= length (h_policy h) ->
    (forall i, s <= i < s + k ->
       exists o, row_action (h_policy h) i = Val o) ->
    (forall i, s <= i < s + k ->
       exists b, greedy_action (h_env h) discount_factor V i = Val b) ->
    exists stable' h',
      foldM (improve_state discount_factor V) (seq s k) stable h
      = Val (stable', h').
Proof.
  induction k as [|k IH]; intros s stable h Hlen Hrow Hgreedy.
  - simpl. eexists. eexists. reflexivity.
  - cbn [seq foldM]. unfold bind. rewrite improve_state_spec.
    destruct (Hrow s) as [o Ho]; [lia|].
    destruct (Hgreedy s) as [b Hb]; [lia|].
    rewrite Ho, Hb. simpl. unfold index_set.
    destruct (list_set_in_range (h_policy h) (i := s)
                (eye_row (nA (h_env h)) b)) as [p Hp]; [lia|].
    rewrite Hp. simpl. apply IH; cbn [h_env h_policy].
    + rewrite (list_set_length _ _ _ Hp). lia.
    + intros i Hi. destruct (Hrow i) as [o' Ho']; [lia|].
      exists o'. rewrite <- Ho'. apply row_action_ext.
      eapply list_set_other; [exact Hp | lia].
    + intros i Hi. apply Hgreedy. lia.
Qed.

Lemma improve_total (discount_factor : R) (V : list R) (h : Heap R) :
  well_formed_env (h_env h) ->
  well_formed_policy (h_env h) (h_policy h) ->
  length V = nS (h_env h) ->
  exists stable h', improve discount_factor V h = Val (stable, h').
Proof.
  intros Hwf Hpol HV. unfold improve, bind, env_nS.
  apply improve_states_total.
  - destruct Hpol as [-> _]. simpl. lia.
  - intros i Hi. eapply row_action_total; try eassumption. lia.
  - intros i Hi. apply greedy_action_total; try assumption. lia.
Qed.


(** ** What policy_eval returns *)

Lemma policy_eval_value (discount_factor theta : R) (fuel : nat)
    (h : Heap R) :
  value_of (policy_eval discount_factor theta fuel h)
  = inplace_eval (h_env h) (h_policy h) discount_factor theta fuel.
Proof.
  rewrite policy_eval_spec. destruct (inplace_eval _ _ _ _ _); reflexivity.
Qed.

Lemma policy_eval_heap (discount_factor theta : R) (fuel : nat)
    (h : Heap R) (V : list R) (h' : Heap R) :
  policy_eval discount_factor theta fuel h = Val (V, h') ->
  h' = mkHeap (h_env h) (h_policy h) V.
Proof.
  rewrite policy_eval_spec.
  destruct (inplace_eval _ _ _ _ _); try discriminate.
  intros [= <- <-]. reflexivity.
Qed.

(** Every entry of an in-place sweep is the backup of its state from the
    entries before it and the old entries from it on. *)
Lemma inplace_sweep_pointwise_from (env : Env R) (policy : list (list R))
    (discount_factor : R) (V : list R) :
  forall (k : nat) (updated new : list R),
    rfold (fun updated s =>
             v <-- backup env policy discount_factor
                          (updated ++ skipn s V) s ;;
             Val (updated ++ [v]))
          (seq (length updated) k) updated = Val new ->
    forall s v, length updated <= s -> nth_error new s = Some v ->
      backup env policy discount_factor (firstn s new ++ skipn s V) s
      = Val v.
Proof.
  induction k as [|k IH]; intros updated new H s v Hs Hv.
  - simpl in H. injection H as <-.
    assert (nth_error updated s = None) by (apply nth_error_None; exact Hs).
    congruence.
  - cbn [seq rfold] in H.
    destruct (backup env policy discount_factor
                (updated ++ skipn (length updated) V) (length updated))
      as [v0| |] eqn:E; simpl in H; try discriminate.
    pose proof H as Happ.
    apply (rfold_append
             (fun updated s =>
                backup env policy discount_factor (updated ++ skipn s V) s))
      in Happ.
    destruct Happ as [tail [Hnew _]].
    destruct (Nat.eq_dec s (length updated)) as [->|Hne].
    + rewrite Hnew in Hv |- *. rewrite <- app_assoc in Hv |- *.
      change ([v0] ++ tail) with (v0 :: tail) in *.
      rewrite nth_error_middle in Hv. injection Hv as <-.
      rewrite firstn_app, firstn_all, Nat.sub_diag. simpl.
      rewrite app_nil_r. exact E.
    + apply (IH (updated ++ [v0]) new); try assumption.
      * rewrite length_app. simpl. rewrite Nat.add_1_r. exact H.
      * rewrite length_app. simpl. lia.
Qed.

(** C1 (as amended).  [policy_eval] is, as a function of [policy], [env],
    [discount_factor] and [theta], the in-place evaluator: it starts from
    the all-zero vector of length [env.nS], and within a sweep the new
    value of state [s] is the backup from the vector that already holds
    this sweep's values of the states below [s] and still holds the
    previous sweep's values of the states from [s] on. *)
Theorem policy_eval_in_place :
  (forall (discount_factor theta : R) (fuel : nat) (h : Heap R),
     value_of (policy_eval discount_factor theta fuel h)
     = iterate_sweeps (inplace_sweep (h_env h) (h_policy h) discount_factor)
                      theta fuel (zeros (nS (h_env h)))) /\
  (forall (env : Env R) (policy : list (list R)) (discount_factor : R)
          (V new : list R) (s : nat) (v : R),
     inplace_sweep env policy discount_factor V = Val new ->
     nth_error new s = Some v ->
     backup env policy discount_factor (firstn s new ++ skipn s V) s
     = Val v).
Proof.
  split.
  - intros. apply policy_eval_value.
  - intros env policy discount_factor V new s v H Hv.
    apply (inplace_sweep_pointwise_from env policy discount_factor V
             (nS env) [] H); [simpl; lia | exact Hv].
Qed.

(** C4.  [policy_eval] returns [V] exactly when some sweep, the [k+1]-th,
    produces [V] from the vector [V_old] of the sweeps before it with
    [delta < theta], where [delta] is the maximum over the states of
    [|V[s] - V_old[s]|], and every earlier sweep had [delta >= theta]. *)
Theorem policy_eval_stopping_rule (discount_factor theta : R) (fuel : nat)
    (h : Heap R) (V : list R) :
  value_of (policy_eval discount_factor theta fuel h) = Val V <->
  exists k V_old,
    k < fuel /\
    sweeps (h_env h) (h_policy h) discount_factor k = Val V_old /\
    inplace_sweep (h_env h) (h_policy h) discount_factor V_old = Val V /\
    (delta_of V_old V <? theta) = true /\
    forall j, j < k ->
      exists Vj Vj',
        sweeps (h_env h) (h_policy h) discount_factor j = Val Vj /\
        sweeps (h_env h) (h_policy h) discount_factor (S j) = Val Vj' /\
        (delta_of Vj Vj' <? theta) = false.
Proof.
  rewrite policy_eval_value. unfold inplace_eval, sweeps.
  apply iterate_sweeps_spec.
Qed.

(** C10.  The argument [policy_eval_fn] is never called: whatever is
    passed for it, the loop evaluates with the module-level [policy_eval]
    and gives the same [(policy, V)]. *)
Theorem policy_eval_fn_inert
    (f g : R -> R -> nat -> M R (list R)) (discount_factor : R)
    (fuel : nat) (h : Heap R) :
  policy_improvement f discount_factor fuel h
  = policy_improvement g discount_factor fuel h /\
  forall fuel',
    improvement_loop discount_factor fuel (S fuel')
    = (V <- policy_eval default_discount_factor default_theta fuel ;;
       policy_stable <- improve discount_factor V ;;
       if policy_stable then (policy <- get_policy ;; ret (policy, V))
       else improvement_loop discount_factor fuel fuel').
Proof.
  split; [reflexivity | intros; reflexivity].
Qed.


(** C9.  [policy_eval] leaves [policy] and [env] as it found them and its
    result is determined by [policy], [env], [discount_factor] and [theta];
    the improvement leaves [env] and the evaluator's [V] as it found them,
    and the rows it writes are determined by [env], [V] and
    [discount_factor]. *)
Theorem evaluate_improve_frame :
  (forall (discount_factor theta : R) (fuel : nat) (h : Heap R)
          (V : list R) (h' : Heap R),
     policy_eval discount_factor theta fuel h = Val (V, h') ->
     h_policy h' = h_policy h /\ h_env h' = h_env h) /\
  (forall (discount_factor theta : R) (fuel : nat) (h1 h2 : Heap R),
     h_env h1 = h_env h2 -> h_policy h1 = h_policy h2 ->
     value_of (policy_eval discount_factor theta fuel h1)
     = value_of (policy_eval discount_factor theta fuel h2)) /\
  (forall (discount_factor : R) (V : list R) (h : Heap R) (stable : bool)
          (h' : Heap R),
     improve discount_factor V h = Val (stable, h') ->
     h_env h' = h_env h /\ h_V h' = h_V h) /\
  (forall (discount_factor : R) (V : list R) (h1 h2 : Heap R)
          (stable1 stable2 : bool) (h1' h2' : Heap R),
     h_env h1 = h_env h2 ->
     length (h_policy h1) = nS (h_env h1) ->
     length (h_policy h2) = nS (h_env h2) ->
     improve discount_factor V h1 = Val (stable1, h1') ->
     improve discount_factor V h2 = Val (stable2, h2') ->
     h_policy h1' = h_policy h2').
Proof.
  split; [|split; [|split]].
  - intros discount_factor theta fuel h V h' H.
    apply policy_eval_heap in H. subst h'. split; reflexivity.
  - intros discount_factor theta fuel h1 h2 Henv Hpol.
    rewrite !policy_eval_value. now rewrite Henv, Hpol.
  - intros discount_factor V h stable h' H. apply improve_inv in H. tauto.
  - intros discount_factor V h1 h2 stable1 stable2 h1' h2' Henv L1 L2 H1 H2.
    apply improve_inv in H1. apply improve_inv in H2.
    destruct H1 as [_ [_ [Hlen1 [Hnew1 _]]]].
    destruct H2 as [_ [_ [Hlen2 [Hnew2 _]]]].
    apply nth_error_ext. intros s.
    destruct (Nat.lt_ge_cases s (nS (h_env h1))) as [Hs|Hs].
    + destruct (Hnew1 s Hs) as [o1 [b1 [_ [G1 R1]]]].
      rewrite Henv in Hs. destruct (Hnew2 s Hs) as [o2 [b2 [_ [G2 R2]]]].
      rewrite R1, R2. rewrite Henv in G1. congruence.
    + assert (E1 : nth_error (h_policy h1') s = None)
        by (apply nth_error_None; lia).
      assert (E2 : nth_error (h_policy h2') s = None)
        by (apply nth_error_None; rewrite Henv in Hs; lia).
      congruence.
Qed.

(** C5.  One round of the loop, whose evaluation gave [V] and whose
    improvement gave the flag [stable]: the flag is set exactly when, in
    every state, the greedy action of the old row equals the greedy action
    of the new row; the loop returns [(policy, V)] when it is set and goes
    for another round of evaluation and improvement when it is not. *)
Theorem improvement_loop_returns_iff_stable
    (zero_le_zero : (Szero <=? Szero) = true)
    (one_le_one : (Sone <=? Sone) = true)
    (one_le_zero : (Sone <=? Szero) = false)
    (zero_le_one : (Szero <=? Sone) = true)
    (discount_factor : R) (fuel_eval fuel : nat) (h : Heap R)
    (V : list R) (h1 : Heap R) (stable : bool) (h2 : Heap R) :
  policy_eval default_discount_factor default_theta fuel_eval h
  = Val (V, h1) ->
  improve discount_factor V h1 = Val (stable, h2) ->
  (stable = true <->
   forall s, s < nS (h_env h) ->
     row_action (h_policy h) s = row_action (h_policy h2) s) /\
  improvement_loop discount_factor fuel_eval (S fuel) h
  = if stable then Val ((h_policy h2, V), h2)
    else improvement_loop discount_factor fuel_eval fuel h2.
Proof.
  intros Heval Himp. split.
  - pose proof (policy_eval_heap _ _ _ _ Heval) as ->.
    apply improve_inv in Himp. cbn [h_env h_policy h_V] in Himp.
    destruct Himp as [_ [_ [_ [Hnew [_ Hst]]]]].
    assert (Hrow : forall s o b, s < nS (h_env h) ->
              row_action (h_policy h) s = Val o ->
              greedy_action (h_env h) discount_factor V s = Val b ->
              row_action (h_policy h2) s = Val b).
    { intros s o b Hs Ho Hb. destruct (Hnew s Hs) as [o' [b' [_ [Hb' Hr]]]].
      unfold row_action, index. rewrite Hr. simpl.
      assert (b' = b) by congruence. subst b'.
      apply argmax_eye_row; try assumption.
      eapply greedy_action_bound. exact Hb. }
    rewrite Hst. split.
    + intros Hall s Hs. destruct (Hnew s Hs) as [o [b [Ho [Hb _]]]].
      rewrite (Hrow s o b Hs Ho Hb), Ho. f_equal. eapply Hall; eassumption.
    + intros Hall s o b Hs Ho Hb. specialize (Hall s Hs).
      rewrite (Hrow s o b Hs Ho Hb), Ho in Hall. congruence.
  - cbn [improvement_loop]. unfold bind. rewrite Heval, Himp.
    destruct stable; reflexivity.
Qed.

(** C3.  On well-formed inputs whose action values are numbers that [<=]
    puts in order (none of them NaN), the improvement returns, and for
    every state [s] the row it leaves in [policy] is one-hot: a 1 at the
    lowest-indexed maximiser [b] of the action values [A(a)], 0 elsewhere,
    of length [env.nA] and of sum 1.  The order is asked of the action
    values of the states only, not of the scalars at large. *)
Theorem improve_rows_one_hot_first_max
    (zero_plus_zero : Szero + Szero = Szero)
    (zero_plus_one : Szero + Sone = Sone)
    (one_plus_zero : Sone + Szero = Sone)
    (one_neq_zero : Sone <> Szero)
    (discount_factor : R) (V : list R) (h : Heap R) :
  well_formed_env (h_env h) ->
  well_formed_policy (h_env h) (h_policy h) ->
  length V = nS (h_env h) ->
  (forall s avs, s < nS (h_env h) ->
     action_values (h_env h) discount_factor V s = Val avs ->
     ordered_values avs = true) ->
  exists stable h',
    improve discount_factor V h = Val (stable, h') /\
    forall s, s < nS (h_env h) ->
      exists row,
        nth_error (h_policy h') s = Some row /\
        greedy_one_hot_row (h_env h) discount_factor V s row.
Proof.
  intros Hwf Hpol HV Hord.
  destruct (improve_total discount_factor V h Hwf Hpol HV)
    as [stable [h' Himp]].
  exists stable, h'. split; [exact Himp|].
  apply improve_inv in Himp. destruct Himp as [_ [_ [_ [Hnew _]]]].
  intros s Hs. destruct (Hnew s Hs) as [o [b [_ [Hb Hrow]]]].
  pose proof (greedy_action_bound _ _ _ _ Hb) as Hlt.
  unfold greedy_action in Hb.
  destruct (action_values (h_env h) discount_factor V s) as [avs| |] eqn:Ea;
    simpl in Hb; try discriminate.
  exists (eye_row (nA (h_env h)) b). split; [exact Hrow|].
  exists avs, b. split; [exact Ea|]. split.
  { intros a x Hx. eapply action_values_inv; eassumption. }
  split; [apply argmax_first_max; [exact (Hord s avs Hs Ea)|exact Hb]|].
  split; [apply eye_row_one_hot; exact Hlt|].
  split; [apply eye_row_length|].
  split; [apply row_sum_eye_row; assumption|].
  intros a x Hx. apply nth_error_eye_row in Hx. destruct Hx as [_ ->].
  destruct (Nat.eqb_spec a b); split; intros; congruence.
Qed.


(** ** A single absorbing state *)

Section SingleState.

Variable discount_factor : R.
Hypothesis discount_zero : discount_factor * Szero = Szero.
Hypothesis zero_plus_zero : Szero + Szero = Szero.

Lemma backup_loop_env_from (n_a : nat) :
  forall (row : list R) (i : nat),
    (i + length row)%nat = n_a ->
    Forall (fun ap => ap * Sone * Szero = Szero) row ->
    rfold (fun v (ap : nat * R) =>
             trans <-- transitions (loop_env n_a) 0 (fst ap) ;;
             rfold (fun v' (t : Transition R) =>
                      let '(prob, next_state, reward, done) := t in
                      x <-- index [Szero] next_state ;;
                      Val (v' + snd ap * prob
                                * (reward + discount_factor * x)))
                   trans v)
          (enumerate_from i row) Szero
    = Val Szero.
Proof.
  induction row as [|ap row IH]; intros i Hi Hrow.
  - reflexivity.
  - cbn [length] in Hi. cbn [enumerate_from rfold].
    unfold transitions at 1. cbn [loop_env P fst snd Nat.eqb andb].
    destruct (Nat.ltb_spec i n_a); [|lia].
    cbn [rbind rfold index nth_error].
    inversion Hrow as [|ap' row' Hap Hrest]; subst.
    rewrite discount_zero, zero_plus_zero, Hap, zero_plus_zero.
    apply IH; [lia|exact Hrest].
Qed.

Lemma backup_loop_env (row : list R) :
  Forall (fun ap => ap * Sone * Szero = Szero) row ->
  backup (loop_env (length row)) [row] discount_factor [Szero] 0
  = Val Szero.
Proof.
  intros Hrow. unfold backup, index, enumerate. simpl.
  apply backup_loop_env_from; [reflexivity|exact Hrow].
Qed.

End SingleState.

(** C8.  One state whose actions are all terminal self-loops of reward 0,
    a policy row of probabilities [ap] with [ap * 1 * 0 = 0], a discount
    factor with [discount_factor * 0 = 0] and [0 < theta].  The first sweep
    writes [0] into [V[0]] and has [delta = 0 < theta], so the loop is left
    at the end of that sweep: the sweep of the code computes [delta = 0]
    and leaves [V = [0]]; in the terms of the stopping rule the returning
    sweep is the first one ([k = 0], from the all-zero vector); the call
    does not return before a sweep has run (a loop bound of no sweep is
    exceeded) and returns [[0]] with a bound of one sweep or more. *)
Theorem policy_eval_single_state
    (zero_plus_zero : Szero + Szero = Szero)
    (zero_minus_zero : Szero - Szero = Szero)
    (abs_zero : Sabs Szero = Szero)
    (zero_lt_zero : (Szero <? Szero) = false)
    (discount_factor theta : R) (row V0 : list R) :
  discount_factor * Szero = Szero ->
  Forall (fun ap => ap * Sone * Szero = Szero) row ->
  (Szero <? theta) = true ->
  let env := loop_env (length row) in
  eval_sweep discount_factor (mkHeap env [row] (zeros 1))
  = Val (Szero, mkHeap env [row] [Szero]) /\
  sweeps env [row] discount_factor 0 = Val (zeros 1) /\
  inplace_sweep env [row] discount_factor (zeros 1) = Val [Szero] /\
  (delta_of (zeros 1) [Szero] <? theta) = true /\
  value_of (policy_eval discount_factor theta 0 (mkHeap env [row] V0))
  = Timeout /\
  forall fuel,
    value_of (policy_eval discount_factor theta (S fuel)
                          (mkHeap env [row] V0))
    = Val [Szero].
Proof.
  intros Hdf Hrow Htheta env.
  assert (Hsweep : inplace_sweep env [row] discount_factor (zeros 1)
                   = Val [Szero]).
  { unfold inplace_sweep, env. cbn [nS loop_env seq rfold app skipn zeros repeat].
    rewrite (@backup_loop_env discount_factor Hdf zero_plus_zero row Hrow).
    reflexivity. }
  assert (Hdelta : delta_of (zeros 1) [Szero] = Szero).
  { unfold delta_of. cbn [zeros repeat combine fold_left fst snd].
    rewrite zero_minus_zero, abs_zero. unfold pymax.
    rewrite zero_lt_zero. reflexivity. }
  split.
  { rewrite eval_sweep_spec by reflexivity.
    rewrite Hsweep, Hdelta. reflexivity. }
  split; [reflexivity|].
  split; [exact Hsweep|].
  split; [rewrite Hdelta; exact Htheta|].
  split; [reflexivity|].
  intros fuel. rewrite policy_eval_value.
  unfold inplace_eval. cbn [h_env h_policy].
  change (nS env) with 1%nat. cbn [iterate_sweeps].
  rewrite Hsweep. cbn [rbind]. rewrite Hdelta, Htheta. reflexivity.
Qed.


(** ** A stable round on a deterministic policy *)

(** From the second round on every row of [policy] is one-hot; a round
    that is stable then leaves [policy] as it was, so the [V] returned with
    it is the value that [policy_eval] computed for that very policy. *)
Lemma stable_round_keeps_one_hot_policy
    (zero_le_zero : (Szero <=? Szero) = true)
    (one_le_one : (Sone <=? Sone) = true)
    (one_le_zero : (Sone <=? Szero) = false)
    (zero_le_one : (Szero <=? Sone) = true)
    (discount_factor : R) (V : list R) (h h' : Heap R) :
  length (h_policy h) = nS (h_env h) ->
  (forall s, s < nS (h_env h) ->
     exists b, b < nA (h_env h) /\
               nth_error (h_policy h) s = Some (eye_row (nA (h_env h)) b)) ->
  improve discount_factor V h = Val (true, h') ->
  h_policy h' = h_policy h.
Proof.
  intros Hlen Hrows Himp. apply improve_inv in Himp.
  destruct Himp as [_ [_ [Hlen' [Hnew [_ Hst]]]]].
  apply nth_error_ext. intros s.
  destruct (Nat.lt_ge_cases s (nS (h_env h))) as [Hs|Hs].
  - destruct (Hrows s Hs) as [b0 [Hb0 Hrow0]].
    destruct (Hnew s Hs) as [o [b [Ho [Hb Hrow]]]].
    rewrite Hrow, Hrow0. do 2 f_equal. symmetry.
    apply (proj1 Hst eq_refl s); [exact Hs| |exact Hb].
    unfold row_action, index. rewrite Hrow0. simpl.
    apply argmax_eye_row; assumption.
  - assert (E1 : nth_error (h_policy h') s = None)
      by (apply nth_error_None; lia).
    assert (E2 : nth_error (h_policy h) s = None)
      by (apply nth_error_None; lia).
    congruence.
Qed.


(** ** The discount factor of the evaluation *)

(** Whatever [discount_factor] the loop is given, the [V] it returns is
    what [policy_eval] computes with its own default, 1.0, for the
    policy the last round started from. *)
Lemma improvement_loop_value_undiscounted (discount_factor : R)
    (fuel_eval : nat) :
  forall (fuel : nat) (h : Heap R) (policy : list (list R)) (V : list R)
         (h' : Heap R),
    improvement_loop discount_factor fuel_eval fuel h
    = Val ((policy, V), h') ->
    exists policy0,
      inplace_eval (h_env h) policy0 default_discount_factor default_theta
                   fuel_eval = Val V.
Proof.
  induction fuel as [|fuel IH]; intros h policy V h' H.
  - discriminate.
  - cbn [improvement_loop] in H. unfold bind in H.
    destruct (policy_eval default_discount_factor default_theta fuel_eval h)
      as [[V1 h1]| |] eqn:E1; try discriminate.
    pose proof (policy_eval_heap _ _ _ _ E1) as ->.
    rewrite policy_eval_spec in E1.
    destruct (inplace_eval (h_env h) (h_policy h) default_discount_factor
                default_theta fuel_eval) as [V1'| |] eqn:E; try discriminate.
    injection E1 as ->.
    destruct (improve discount_factor V1 _) as [[stable h2]| |] eqn:E2;
      try discriminate.
    destruct stable.
    + unfold get_policy, ret in H. injection H as _ <- _.
      exists (h_policy h). exact E.
    + apply improve_inv in E2. destruct E2 as [Henv _].
      cbn [h_env] in Henv. apply IH in H. rewrite Henv in H. exact H.
Qed.

End Proofs.

(** * The environments are well formed *)

Lemma bandit_env_well_formed {R : Type} {SR : Scalar R} :
  well_formed_env (bandit_env (R := R)).
Proof.
  split; [simpl; lia|]. intros s a Hs Ha. simpl in Hs, Ha.
  destruct s as [|[|s]]; try lia; destruct a as [|[|a]]; try lia;
    (eexists; split; [reflexivity | repeat constructor]).
Qed.

Lemma uniform_policy_well_formed {R : Type} {SR : Scalar R} (env : Env R) :
  well_formed_policy env (uniform_policy (nS env) (nA env)).
Proof.
  unfold well_formed_policy, uniform_policy. split.
  - apply repeat_length.
  - apply Forall_forall. intros row Hrow. apply repeat_spec in Hrow.
    subst row. apply repeat_length.
Qed.

(** * Runs *)

Local Open Scope float_scope.

(** [default_theta] is the binary64 number that the literal [0.00001] of
    line 12 denotes. *)
Example default_theta_binary64 :
  default_theta = 0x1.4f8b588e368f1p-17.
Proof. reflexivity. Qed.

(** C1 as stated fails on the chain: in-place and synchronous evaluation
    differ.  With [theta = 2] both stop after their first sweep, in which
    state 1 reads the value of state 0; in place it is already 1, frozen
    it is still 0. *)
Lemma policy_eval_not_jacobi :
  value_of (policy_eval 1 2 10 (mkHeap chain_env [[1]; [1]; [1]] []))
  = Val [1; 1; 0] /\
  jacobi_eval chain_env [[1]; [1]; [1]] 1 2 10 = Val [1; 0; 0] /\
  value_of (policy_eval 1 2 10 (mkHeap chain_env [[1]; [1]; [1]] []))
  <> jacobi_eval chain_env [[1]; [1]; [1]] 1 2 10.
Proof.
  split; [vm_compute; reflexivity|]. split; [vm_compute; reflexivity|].
  intros H.
  apply (f_equal (fun r => match r with
                           | Val [_; x; _] => PrimFloat.eqb x 1
                           | _ => false
                           end)) in H.
  vm_compute in H. discriminate.
Qed.

(** So do they on the 4x4 grid with the defaults of the source, uniform
    policy, [discount_factor = 1.0] and [theta = 0.00001]. *)
Example policy_eval_not_jacobi_on_grid :
  value_of (policy_eval 1 default_theta 1000
              (at_loop_start (gridworld [0; 15]%nat)))
  <> jacobi_eval (gridworld [0; 15]%nat) (uniform_policy 16 4)
                 1 default_theta 1000.
Proof.
  intros H.
  apply (f_equal
           (fun r =>
              match r, value_of (policy_eval 1 default_theta 1000
                                   (at_loop_start (gridworld [0; 15]%nat)))
              with
              | Val l, Val l' => same_floats l l'
              | _, _ => false
              end)) in H.
  vm_compute in H. discriminate.
Qed.

(** C2, at [discount_factor = 0.5] on the chain: the loop returns the
    value of the policy under discount 1.0, the default of [policy_eval];
    under 0.5 the value of state 1 is 0.5. *)
Theorem policy_improvement_evaluates_undiscounted :
  value_of (policy_improvement policy_eval 0.5 10 (on_entry chain_env))
  = Val ([[1]; [1]; [1]], [1; 1; 0]) /\
  value_of (policy_eval 1 default_theta 10
              (mkHeap chain_env [[1]; [1]; [1]] []))
  = Val [1; 1; 0] /\
  value_of (policy_eval 0.5 default_theta 10
              (mkHeap chain_env [[1]; [1]; [1]] []))
  = Val [1; 0.5; 0].
Proof. repeat split; vm_compute; reflexivity. Qed.

(** C7, on the two-armed environment: the loop is stable in its first
    round and returns the greedy policy with the value of the uniform
    policy, 0.5 in state 0; the value of the returned policy is 1 there. *)
Theorem policy_improvement_first_round_value :
  value_of (policy_improvement policy_eval 1 10 (on_entry bandit_env))
  = Val ([[1; 0]; [1; 0]], [0.5; 0]) /\
  value_of (policy_eval 1 default_theta 10
              (mkHeap bandit_env (uniform_policy 2 2) []))
  = Val [0.5; 0] /\
  value_of (policy_eval 1 default_theta 10
              (mkHeap bandit_env [[1; 0]; [1; 0]] []))
  = Val [1; 0].
Proof. repeat split; vm_compute; reflexivity. Qed.

(** C6 (as amended).  On the 4x4 grid whose two corners 0 and 15 are
    terminal, [policy_improvement(env)] returns the value vector
    [expected_v] itself, which passes the test of lines 136-137. *)
Theorem gridworld_two_terminals_value :
  exists policy,
    value_of (policy_improvement policy_eval 1 1000
                (on_entry (gridworld [0; 15]%nat)))
    = Val (policy, expected_v) /\
    almost_equal_2 expected_v expected_v = true.
Proof. eexists. split; vm_compute; reflexivity. Qed.

(** C6 as stated fails: with a single terminal corner, whichever it is,
    the returned value vector fails the test, since the opposite corner is
    six moves away. *)
Lemma gridworld_single_terminal_differs :
  Forall (fun c =>
            exists policy V,
              value_of (policy_improvement policy_eval 1 2000
                          (on_entry (gridworld [c])))
              = Val (policy, V) /\
              almost_equal_2 V expected_v = false)
         [0; 3; 12; 15]%nat.
Proof.
  repeat constructor;
    (eexists; eexists; split; [vm_compute; reflexivity | vm_compute; reflexivity]).
Qed.

(** The single absorbing state, in binary64. *)
Example policy_eval_single_state_float :
  value_of (policy_eval 1 default_theta 1 (mkHeap (loop_env 1) [[1]] []))
  = Val [0].
Proof. vm_compute. reflexivity. Qed.

(** * The theorems at work *)

(** A first round on the two-armed environment, in binary64: it is
    stable and the loop returns. *)
Lemma improvement_loop_returns_iff_stable_witness :
  policy_eval default_discount_factor default_theta 10
              (at_loop_start bandit_env)
  = Val ([0.5; 0], mkHeap bandit_env (uniform_policy 2 2) [0.5; 0]) /\
  improve 1 [0.5; 0] (mkHeap bandit_env (uniform_policy 2 2) [0.5; 0])
  = Val (true, mkHeap bandit_env [[1; 0]; [1; 0]] [0.5; 0]) /\
  ((true = true <->
    forall s, (s < 2)%nat ->
      row_action (uniform_policy (R := float) 2 2) s
      = row_action [[1; 0]; [1; 0]] s) /\
   improvement_loop 1 10 6 (at_loop_start bandit_env)
   = Val (([[1; 0]; [1; 0]], [0.5; 0]),
          mkHeap bandit_env [[1; 0]; [1; 0]] [0.5; 0])).
Proof.
  assert (H1 : policy_eval default_discount_factor default_theta 10
                 (at_loop_start bandit_env)
               = Val ([0.5; 0],
                      mkHeap bandit_env (uniform_policy 2 2) [0.5; 0]))
    by (vm_compute; reflexivity).
  assert (H2 : improve 1 [0.5; 0]
                 (mkHeap bandit_env (uniform_policy 2 2) [0.5; 0])
               = Val (true, mkHeap bandit_env [[1; 0]; [1; 0]] [0.5; 0]))
    by (vm_compute; reflexivity).
  split; [exact H1|]. split; [exact H2|].
  exact (@improvement_loop_returns_iff_stable
           float Scalar_float eq_refl eq_refl eq_refl eq_refl 1 10%nat 5%nat
           (at_loop_start bandit_env) _ _ _ _ H1 H2).
Defined.

(** [np.argmax] on arrays with and without NaN: the first NaN wins, and
    without one the first of the greatest entries. *)
Example argmax_on_nan :
  argmax [0; nan; 5] = Val 1%nat /\ argmax [1; nan] = Val 1%nat /\
  argmax [nan; 7] = Val 0%nat /\ argmax [1; 3; 3; 2] = Val 1%nat /\
  argmax [neg_infinity; infinity; 0] = Val 1%nat.
Proof. vm_compute. repeat split. Qed.

(** Why the action values have to be ordered: a transition of
    probability 0 into a state of value [2^1023], for a reward of
    [2^1023], gives the action value [0 * inf], a NaN.  The row written
    for the state is then one-hot at that NaN, index 1, although the
    action value at index 2 is the greatest. *)
Example improve_row_at_nan_action_value :
  let env :=
    mkEnv 2 3 (fun s a =>
      match s, a with
      | 0%nat, 0%nat => Some [(1, 0%nat, 0, false)]
      | 0%nat, 1%nat => Some [(0, 1%nat, 0x1p1023, false)]
      | 0%nat, 2%nat => Some [(1, 0%nat, 5, false)]
      | 1%nat, 0%nat | 1%nat, 1%nat | 1%nat, 2%nat =>
          Some [(1, 1%nat, 0, true)]
      | _, _ => None
      end) in
  action_values env 1 [0; 0x1p1023] 0 = Val [0; nan; 5] /\
  ordered_values [0; nan; 5] = false /\
  exists stable h',
    improve 1 [0; 0x1p1023] (mkHeap env (uniform_policy 2 3) [])
    = Val (stable, h') /\
    nth_error (h_policy h') 0 = Some [0; 1; 0].
Proof.
  cbv zeta. split; [vm_compute; reflexivity|].
  split; [vm_compute; reflexivity|].
  eexists. eexists. split; vm_compute; reflexivity.
Qed.

Lemma float_one_neq_zero : Sone <> (Szero : float).
Proof.
  intros H. apply (f_equal (fun x => PrimFloat.eqb x 1)) in H.
  vm_compute in H. discriminate.
Qed.

(** The improvement of the uniform policy of the two-armed environment
    from [V = [0.5, 0]], in binary64: the action values are [[1, 0]] in
    state 0 and [[0, 0]] in state 1. *)
Lemma improve_rows_one_hot_first_max_witness :
  well_formed_env (R := float) bandit_env /\
  well_formed_policy (R := float) bandit_env (uniform_policy 2 2) /\
  length [0.5; 0] = 2%nat /\
  (forall s avs, (s < 2)%nat ->
     action_values bandit_env 1 [0.5; 0] s = Val avs ->
     ordered_values avs = true) /\
  exists stable h',
    improve 1 [0.5; 0] (at_loop_start bandit_env) = Val (stable, h') /\
    forall s, (s < 2)%nat ->
      exists row,
        nth_error (h_policy h') s = Some row /\
        greedy_one_hot_row bandit_env 1 [0.5; 0] s row.
Proof.
  assert (Hord : forall s avs, (s < 2)%nat ->
            action_values (R := float) bandit_env 1 [0.5; 0] s = Val avs ->
            ordered_values avs = true).
  { intros s avs Hs E. destruct s as [|[|s]]; [| |lia];
      vm_compute in E; injection E as <-; vm_compute; reflexivity. }
  split; [exact bandit_env_well_formed|].
  split; [exact (uniform_policy_well_formed bandit_env)|].
  split; [reflexivity|].
  split; [exact Hord|].
  exact (@improve_rows_one_hot_first_max
           float Scalar_float eq_refl eq_refl eq_refl float_one_neq_zero
           1 [0.5; 0] (at_loop_start bandit_env)
           bandit_env_well_formed (uniform_policy_well_formed bandit_env)
           eq_refl Hord).
Defined.

(** One state, two actions taken with probability 0.5 each, the default
    [theta] and [discount_factor], in binary64. *)
Lemma policy_eval_single_state_witness :
  (1 * 0 = 0 /\
   Forall (fun ap => ap * 1 * 0 = 0) [0.5; 0.5] /\
   Sltb (Szero : float) default_theta = true) /\
  (eval_sweep 1 (mkHeap (loop_env 2) [[0.5; 0.5]] (zeros 1))
   = Val (0, mkHeap (loop_env 2) [[0.5; 0.5]] [0]) /\
   sweeps (loop_env 2) [[0.5; 0.5]] 1 0 = Val (zeros 1) /\
   inplace_sweep (loop_env 2) [[0.5; 0.5]] 1 (zeros 1) = Val [0] /\
   Sltb (delta_of (zeros 1) [0]) default_theta = true /\
   value_of (policy_eval 1 default_theta 0
               (mkHeap (loop_env 2) [[0.5; 0.5]] []))
   = Timeout /\
   forall fuel,
     value_of (policy_eval 1 default_theta (S fuel)
                 (mkHeap (loop_env 2) [[0.5; 0.5]] []))
     = Val [0]).
Proof.
  assert (Hrow : Forall (fun ap : float => ap * 1 * 0 = 0) [0.5; 0.5])
    by (repeat constructor).
  split; [split; [reflexivity|split; [exact Hrow|reflexivity]]|].
  exact (@policy_eval_single_state
           float Scalar_float eq_refl eq_refl eq_refl eq_refl
           1 default_theta [0.5; 0.5] [] eq_refl Hrow eq_refl).
Defined.

Local Close Scope float_scope.

(** * Further properties of the code *)

Section Further.

Context {R : Type} {SR : Scalar R}.

Local Open Scope scalar_scope.

(** ** Loops over a list that splits *)

Lemma rfold_app {A B} (body : B -> A -> result B) (l1 l2 : list A) :
  forall acc,
    rfold body (l1 ++ l2) acc
    = (acc' <-- rfold body l1 acc ;; rfold body l2 acc').
Proof.
  induction l1 as [|x l1 IH]; intros acc; simpl.
  - reflexivity.
  - destruct (body acc x) as [b| |]; simpl; [apply IH | reflexivity..].
Qed.


(** ** Sweeps on well-formed inputs *)

Lemma backup_transitions_total (discount_factor action_prob : R)
    (W : list R) (trans : list (Transition R)) :
  Forall (fun t => next_state_of t < length W) trans ->
  forall v,
    exists v',
      rfold (fun v' (t : Transition R) =>
               let '(prob, next_state, reward, done) := t in
               x <-- index W next_state ;;
               Val (v' + action_prob * prob
                         * (reward + discount_factor * x)))
            trans v
      = Val v'.
Proof.
  induction 1 as [|[[[prob next_state] reward] done] trans Ht _ IH];
    intros v; simpl.
  - eexists. reflexivity.
  - simpl in Ht. unfold index at 1.
    destruct (nth_error W next_state) as [x|] eqn:E.
    + simpl. apply IH.
    + apply nth_error_None in E. lia.
Qed.

Lemma backup_total (env : Env R) (policy : list (list R))
    (discount_factor : R) (W : list R) (s : nat) (row : list R) :
  well_formed_env env -> length W = nS env -> s < nS env ->
  nth_error policy s = Some row -> length row = nA env ->
  exists v, backup env policy discount_factor W s = Val v.
Proof.
  intros [_ Hwf] HW Hs Hrow Hlen. unfold backup, index, enumerate.
  rewrite Hrow. cbn [rbind].
  assert (Hgen : forall (l : list R) (i : nat) (v : R),
            (i + length l <= nA env)%nat ->
            exists v',
              rfold (fun v (ap : nat * R) =>
                       trans <-- transitions env s (fst ap) ;;
                       rfold (fun v' (t : Transition R) =>
                                let '(prob, next_state, reward, done) := t in
                                x <-- index W next_state ;;
                                Val (v' + snd ap * prob
                                          * (reward + discount_factor * x)))
                             trans v)
                    (enumerate_from i l) v
              = Val v').
  { induction l as [|ap l IH]; intros i v Hi; cbn [enumerate_from rfold].
    - eexists. reflexivity.
    - cbn [length] in Hi. unfold transitions at 1. cbn [fst snd].
      destruct (Hwf s i Hs) as [trans [HP Hall]]; [lia|]. rewrite HP.
      cbn [rbind].
      destruct (@backup_transitions_total discount_factor ap W trans)
        with (v := v) as [v' Hv'].
      { rewrite HW. exact Hall. }
      rewrite Hv'. cbn [rbind]. apply IH. lia. }
  apply Hgen. simpl. lia.
Qed.

(** The first [k] states of a sweep succeed as long as [policy] has rows
    for them. *)
Lemma inplace_prefix_total (env : Env R) (policy : list (list R))
    (discount_factor : R) (V : list R) :
  well_formed_env env ->
  Forall (fun row => length row = nA env) policy ->
  length V = nS env ->
  forall (k : nat) (updated : list R),
    length updated + k <= length policy ->
    length updated + k <= nS env ->
    exists new,
      rfold (fun updated s =>
               v <-- backup env policy discount_factor
                            (updated ++ skipn s V) s ;;
               Val (updated ++ [v]))
            (seq (length updated) k) updated
      = Val new.
Proof.
  intros Hwf Hrows HV. induction k as [|k IH]; intros updated Hp Hn.
  - simpl. eexists. reflexivity.
  - cbn [seq rfold].
    destruct (nth_error policy (length updated)) as [row|] eqn:Hrow.
    2:{ apply nth_error_None in Hrow. lia. }
    destruct (@backup_total env policy discount_factor
                (updated ++ skipn (length updated) V)
                (length updated) row) as [v Hv];
      try assumption; try lia.
    { rewrite length_app, length_skipn. lia. }
    { rewrite Forall_forall in Hrows. apply Hrows.
      eapply nth_error_In. exact Hrow. }
    rewrite Hv. cbn [rbind].
    pose proof (IH (updated ++ [v])) as IH'.
    rewrite length_app in IH'. cbn [length] in IH'.
    rewrite Nat.add_1_r in IH'. apply IH'; lia.
Qed.

Lemma inplace_sweep_total (env : Env R) (policy : list (list R))
    (discount_factor : R) (V : list R) :
  well_formed_env env -> well_formed_policy env policy ->
  length V = nS env ->
  exists new, inplace_sweep env policy discount_factor V = Val new.
Proof.
  intros Hwf [Hlen Hrows] HV. unfold inplace_sweep.
  apply (@inplace_prefix_total env policy discount_factor V Hwf Hrows HV
           (nS env) []);
    simpl; lia.
Qed.

Lemma iterate_sweeps_length (env : Env R) (policy : list (list R))
    (discount_factor theta : R) :
  forall (fuel : nat) (V V' : list R),
    iterate_sweeps (inplace_sweep env policy discount_factor) theta fuel V
    = Val V' ->
    length V' = nS env.
Proof.
  induction fuel as [|fuel IH]; intros V V' H; simpl in H.
  - discriminate.
  - destruct (inplace_sweep env policy discount_factor V) as [new| |] eqn:E;
      simpl in H; try discriminate.
    destruct (delta_of V new <? theta).
    + injection H as <-. eapply inplace_sweep_length. exact E.
    + eapply IH. exact H.
Qed.

Lemma iterate_sweeps_never_raises (env : Env R) (policy : list (list R))
    (discount_factor theta : R) :
  well_formed_env env -> well_formed_policy env policy ->
  forall (fuel : nat) (V : list R) (e : pyerr),
    length V = nS env ->
    iterate_sweeps (inplace_sweep env policy discount_factor) theta fuel V
    <> Exn e.
Proof.
  intros Hwf Hpol. induction fuel as [|fuel IH]; intros V e HV; simpl.
  - discriminate.
  - destruct (@inplace_sweep_total env policy discount_factor V Hwf Hpol HV)
      as [new E].
    rewrite E. simpl. destruct (delta_of V new <? theta); [discriminate|].
    apply IH. eapply inplace_sweep_length. exact E.
Qed.

(** X1.  What [policy_eval] returns is a vector of length [env.nS]. *)
Theorem policy_eval_result_length (discount_factor theta : R) (fuel : nat)
    (h : Heap R) (V : list R) :
  value_of (policy_eval discount_factor theta fuel h) = Val V ->
  length V = nS (h_env h).
Proof.
  rewrite policy_eval_value. unfold inplace_eval.
  apply iterate_sweeps_length.
Qed.

(** X2.  On a well-formed environment and a policy of shape [[nS, nA]]
    no sweep of [policy_eval] raises: every sweep produces a vector, and
    the call either returns or keeps sweeping. *)
Theorem policy_eval_never_raises (discount_factor theta : R) (fuel : nat)
    (h : Heap R) :
  well_formed_env (h_env h) ->
  well_formed_policy (h_env h) (h_policy h) ->
  (forall e, value_of (policy_eval discount_factor theta fuel h) <> Exn e) /\
  (forall k, exists V,
     sweeps (h_env h) (h_policy h) discount_factor k = Val V /\
     length V = nS (h_env h)).
Proof.
  intros Hwf Hpol. split.
  - intros e. rewrite policy_eval_value. unfold inplace_eval.
    apply iterate_sweeps_never_raises; try assumption. apply zeros_length.
  - unfold sweeps. induction k as [|k [V [HV Hlen]]]; cbn [sweeps_from].
    + eexists. split; [reflexivity | apply zeros_length].
    + rewrite HV. cbn [rbind].
      destruct (@inplace_sweep_total (h_env h) (h_policy h) discount_factor
                  V Hwf Hpol Hlen) as [new E].
      exists new. split; [exact E|]. eapply inplace_sweep_length. exact E.
Qed.

(** X13.  A policy with fewer rows than [env.nS] makes the first sweep of
    [policy_eval] raise [IndexError], at the first state without a row. *)
Theorem policy_eval_short_policy (discount_factor theta : R) (fuel : nat)
    (h : Heap R) :
  well_formed_env (h_env h) ->
  Forall (fun row => length row = nA (h_env h)) (h_policy h) ->
  length (h_policy h) < nS (h_env h) ->
  value_of (policy_eval discount_factor theta (S fuel) h) = Exn IndexError.
Proof.
  intros Hwf Hrows Hshort. rewrite policy_eval_value.
  unfold inplace_eval. cbn [iterate_sweeps].
  assert (E : inplace_sweep (h_env h) (h_policy h) discount_factor
                (zeros (nS (h_env h))) = Exn IndexError).
  { unfold inplace_sweep.
    assert (Hsplit : seq 0 (nS (h_env h))
                     = seq 0 (length (h_policy h))
                       ++ seq (length (h_policy h))
                              (S (nS (h_env h) - S (length (h_policy h))))).
    { change (length (h_policy h)) with (0 + length (h_policy h))%nat at 2.
      rewrite <- seq_app. f_equal. lia. }
    rewrite Hsplit, rfold_app.
    destruct (@inplace_prefix_total (h_env h) (h_policy h) discount_factor
                (zeros (nS (h_env h))) Hwf Hrows
                (zeros_length (nS (h_env h))) (length (h_policy h)) [])
      as [new Hnew]; [simpl; lia..|].
    cbn [length] in Hnew. rewrite Hnew. cbn [rbind seq rfold Nat.add].
    unfold backup at 1, index at 1.
    rewrite (proj2 (nth_error_None (h_policy h) (length (h_policy h))))
      by lia.
    reflexivity. }
  rewrite E. reflexivity.
Qed.

(** ** The stopping rule at its edges *)

(** [delta] is the 0 it starts from or the absolute value of a change. *)
Lemma fold_pymax_start_or_abs :
  forall (l : list (R * R)) (d : R),
    fold_left (fun d (on : R * R) => pymax d (Sabs (snd on - fst on))) l d
    = d \/
    exists x,
      fold_left (fun d (on : R * R) => pymax d (Sabs (snd on - fst on))) l d
      = Sabs x.
Proof.
  induction l as [|[o n] l IH]; intros d; cbn [fold_left fst snd].
  - left. reflexivity.
  - destruct (IH (pymax d (Sabs (n - o)))) as [H|H]; [|right; exact H].
    rewrite H. unfold pymax.
    destruct (d <? Sabs (n - o)); [right; eexists|left]; reflexivity.
Qed.

(** X3.  [delta] is 0 or the absolute value of some change.  With a
    [theta] that neither 0 nor any absolute value is below (in binary64:
    a [theta] that is 0, negative or NaN) the test [delta < theta] never
    passes: [policy_eval] does not return, whatever the environment and
    the policy. *)
Theorem policy_eval_nonpositive_theta
    (discount_factor theta : R) (fuel : nat) (h : Heap R) (V : list R) :
  (Szero <? theta) = false ->
  (forall x : R, (Sabs x <? theta) = false) ->
  value_of (policy_eval discount_factor theta fuel h) <> Val V.
Proof.
  intros Hzero Habs. rewrite policy_eval_value. unfold inplace_eval.
  generalize (zeros (R := R) (nS (h_env h))) as V0.
  induction fuel as [|fuel IH]; intros V0; simpl.
  - discriminate.
  - destruct (inplace_sweep (h_env h) (h_policy h) discount_factor V0)
      as [new| |]; simpl; try discriminate.
    assert (E : (delta_of V0 new <? theta) = false).
    { unfold delta_of.
      destruct (fold_pymax_start_or_abs (combine V0 new) Szero)
        as [->|[x ->]]; [exact Hzero | apply Habs]. }
    rewrite E. apply IH.
Qed.

(** ** No discounting of the future at all *)

Section ZeroDiscount.

(** Below, the vectors hold values [x] with [0 * x = 0]: in binary64
    the positive finite ones and [+0]. *)



End ZeroDiscount.



(** ** The helper of the improvement *)

(** X5.  [one_step_lookahead(state, V)] touches none of the shared
    objects and returns a vector with one entry per action, entry [a]
    being [A(a)]: filling the array [A] in place mixes no two actions. *)
Theorem one_step_lookahead_pure (discount_factor : R) (state : nat)
    (V : list R) (h : Heap R) (A : list R) (h' : Heap R) :
  one_step_lookahead discount_factor state V h = Val (A, h') ->
  h' = h /\
  length A = nA (h_env h) /\
  forall a, a < nA (h_env h) ->
    exists x, nth_error A a = Some x /\
              action_value (h_env h) discount_factor V state a = Val x.
Proof.
  rewrite one_step_lookahead_spec. unfold lift.
  destruct (action_values (h_env h) discount_factor V state) as [avs| |] eqn:E;
    try discriminate.
  intros [= <- <-]. apply action_values_inv in E. destruct E as [Hlen Hall].
  split; [reflexivity|]. split; [exact Hlen|].
  intros a Ha. destruct (nth_error avs a) as [x|] eqn:Ex.
  - exists x. split; [reflexivity|]. apply (Hall a x Ex).
  - apply nth_error_None in Ex. lia.
Qed.

(** ** What the outer loop hands back *)

Lemma policy_eval_returns_length (discount_factor theta : R) (fuel : nat)
    (h : Heap R) (V : list R) (h' : Heap R) :
  policy_eval discount_factor theta fuel h = Val (V, h') ->
  length V = nS (h_env h).
Proof.
  intros H.
  assert (Hv : value_of (policy_eval discount_factor theta fuel h) = Val V)
    by (rewrite H; reflexivity).
  rewrite policy_eval_value in Hv. unfold inplace_eval in Hv.
  eapply iterate_sweeps_length. exact Hv.
Qed.

(** After an improvement every row of [policy] is a row of [np.eye]. *)
Lemma improve_keeps_shape (discount_factor : R) (V : list R) (h : Heap R)
    (stable : bool) (h' : Heap R) :
  length (h_policy h) = nS (h_env h) ->
  improve discount_factor V h = Val (stable, h') ->
  length (h_policy h') = nS (h_env h') /\
  (forall s, s < nS (h_env h') ->
     exists b, b < nA (h_env h') /\
               greedy_action (h_env h') discount_factor V s = Val b /\
               nth_error (h_policy h') s = Some (eye_row (nA (h_env h')) b)).
Proof.
  intros Hlen H. apply improve_inv in H.
  destruct H as [Henv [_ [Hlen' [Hnew _]]]]. rewrite Henv. split.
  - congruence.
  - intros s Hs. destruct (Hnew s Hs) as [o [b [_ [Hb Hrow]]]].
    exists b. split; [eapply greedy_action_bound; exact Hb|].
    split; assumption.
Qed.

Lemma improvement_loop_result (discount_factor : R) (fuel_eval : nat) :
  forall (fuel : nat) (h : Heap R) (policy : list (list R)) (V : list R)
         (h' : Heap R),
    length (h_policy h) = nS (h_env h) ->
    improvement_loop discount_factor fuel_eval fuel h
    = Val ((policy, V), h') ->
    h_env h' = h_env h /\ h_policy h' = policy /\
    length policy = nS (h_env h) /\ length V = nS (h_env h) /\
    forall s, s < nS (h_env h) ->
      exists b, b < nA (h_env h) /\
                greedy_action (h_env h) discount_factor V s = Val b /\
                nth_error policy s = Some (eye_row (nA (h_env h)) b).
Proof.
  induction fuel as [|fuel IH]; intros h policy V h' Hlen H.
  - discriminate.
  - cbn [improvement_loop] in H. unfold bind in H.
    destruct (policy_eval default_discount_factor default_theta fuel_eval h)
      as [[V1 h1]| |] eqn:E1; try discriminate.
    pose proof (@policy_eval_returns_length _ _ _ _ _ _ E1) as HV1.
    pose proof (@policy_eval_heap R SR _ _ _ _ _ _ E1) as ->.
    destruct (improve discount_factor V1 _) as [[stable h2]| |] eqn:E2;
      try discriminate.
    pose proof (@improve_keeps_shape discount_factor V1
                  (mkHeap (h_env h) (h_policy h) V1) stable h2 Hlen E2)
      as [Hlen2 Hrows2].
    pose proof (@improve_inv R SR _ _ _ _ _ E2) as [Henv2 _].
    cbn [h_env h_policy] in *.
    destruct stable.
    + unfold get_policy, ret in H. injection H as <- <- <-.
      rewrite Henv2 in Hlen2, Hrows2.
      repeat split; assumption.
    + destruct (IH h2 policy V h' Hlen2 H) as [He [Hp [Hl [HV Hr]]]].
      rewrite Henv2 in He, Hl, HV, Hr. repeat split; assumption.
Qed.

(** X6.  When [policy_improvement] returns [(policy, V)], [env] is as it
    was, [V] has [env.nS] entries, and [policy] has [env.nS] rows, row [s]
    being [np.eye(env.nA)[b]] for [b = np.argmax] of the action values of
    [s] under the returned [V] and [discount_factor]. *)
Theorem policy_improvement_returns_greedy_policy
    (f : R -> R -> nat -> M R (list R)) (discount_factor : R) (fuel : nat)
    (h : Heap R) (policy : list (list R)) (V : list R) (h' : Heap R) :
  policy_improvement f discount_factor fuel h = Val ((policy, V), h') ->
  h_env h' = h_env h /\ h_policy h' = policy /\
  length policy = nS (h_env h) /\ length V = nS (h_env h) /\
  forall s, s < nS (h_env h) ->
    exists b, b < nA (h_env h) /\
              greedy_action (h_env h) discount_factor V s = Val b /\
              nth_error policy s = Some (eye_row (nA (h_env h)) b).
Proof.
  unfold policy_improvement, bind, env_nS, env_nA, new_policy. intros H.
  apply improvement_loop_result in H; [exact H|].
  cbn [h_env h_policy]. unfold uniform_policy. apply repeat_length.
Qed.

Lemma improvement_loop_never_raises (discount_factor : R) (fuel_eval : nat) :
  forall (fuel : nat) (h : Heap R) (e : pyerr),
    well_formed_env (h_env h) ->
    well_formed_policy (h_env h) (h_policy h) ->
    value_of (improvement_loop discount_factor fuel_eval fuel h) <> Exn e.
Proof.
  induction fuel as [|fuel IH]; intros h e Hwf Hpol.
  - discriminate.
  - cbn [improvement_loop]. unfold bind.
    destruct (policy_eval default_discount_factor default_theta fuel_eval h)
      as [[V1 h1]|e1|] eqn:E1.
    + pose proof (@policy_eval_returns_length _ _ _ _ _ _ E1) as HV1.
      pose proof (@policy_eval_heap R SR _ _ _ _ _ _ E1) as ->.
      destruct (@improve_total R SR discount_factor V1
                  (mkHeap (h_env h) (h_policy h) V1) Hwf Hpol HV1)
        as [stable [h2 E2]].
      rewrite E2. destruct stable; [discriminate|]. cbn [value_of].
      pose proof (@improve_keeps_shape discount_factor V1
                    (mkHeap (h_env h) (h_policy h) V1) false h2
                    (proj1 Hpol) E2) as [Hlen2 Hrows2].
      pose proof (@improve_inv R SR _ _ _ _ _ E2) as [Henv2 _].
      cbn [h_env h_policy] in *.
      apply IH; [rewrite Henv2; exact Hwf|]. split; [exact Hlen2|].
      apply Forall_forall. intros row Hin.
      apply In_nth_error in Hin. destruct Hin as [s Hs].
      assert (Hlt : s < nS (h_env h2)).
      { rewrite <- Hlen2. apply nth_error_Some. congruence. }
      destruct (Hrows2 s Hlt) as [b [_ [_ Hrow]]].
      rewrite Hrow in Hs. injection Hs as <-. apply eye_row_length.
    + exfalso.
      assert (Hv : value_of (policy_eval default_discount_factor
                               default_theta fuel_eval h) = Exn e1)
        by (rewrite E1; reflexivity).
      rewrite policy_eval_value in Hv. unfold inplace_eval in Hv.
      eapply iterate_sweeps_never_raises; try eassumption.
      apply zeros_length.
    + discriminate.
Qed.

(** X7.  On a well-formed environment [policy_improvement] raises
    nothing: it returns, or it keeps iterating. *)
Theorem policy_improvement_never_raises
    (f : R -> R -> nat -> M R (list R)) (discount_factor : R) (fuel : nat)
    (h : Heap R) (e : pyerr) :
  well_formed_env (h_env h) ->
  value_of (policy_improvement f discount_factor fuel h) <> Exn e.
Proof.
  intros Hwf. unfold policy_improvement, bind, env_nS, env_nA, new_policy.
  apply improvement_loop_never_raises; cbn [h_env h_policy].
  - exact Hwf.
  - apply uniform_policy_well_formed.
Qed.

(** X10.  Improving twice from the same [V] changes nothing the second
    time: the rows stay and the second pass reports a stable policy. *)
Theorem improve_idempotent
    (zero_le_zero : (Szero <=? Szero) = true)
    (one_le_one : (Sone <=? Sone) = true)
    (one_le_zero : (Sone <=? Szero) = false)
    (zero_le_one : (Szero <=? Sone) = true)
    (discount_factor : R) (V : list R) (h : Heap R) (stable : bool)
    (h1 : Heap R) :
  improve discount_factor V h = Val (stable, h1) ->
  improve discount_factor V h1 = Val (true, h1).
Proof.
  intros H. apply improve_inv in H.
  destruct H as [Henv [HV [Hlen [Hnew _]]]].
  assert (Hrow1 : forall s, s < nS (h_env h1) ->
            exists b,
              greedy_action (h_env h1) discount_factor V s = Val b /\
              nth_error (h_policy h1) s = Some (eye_row (nA (h_env h1)) b) /\
              row_action (h_policy h1) s = Val b).
  { intros s Hs. rewrite Henv in Hs |- *.
    destruct (Hnew s Hs) as [o [b [_ [Hb Hrow]]]].
    exists b. split; [exact Hb|]. split; [exact Hrow|].
    unfold row_action, index. rewrite Hrow. cbn [rbind].
    apply argmax_eye_row; try assumption.
    eapply greedy_action_bound. exact Hb. }
  assert (Hge : nS (h_env h1) <= length (h_policy h1)).
  { destruct (Nat.le_gt_cases (nS (h_env h1)) (length (h_policy h1)))
      as [Hle|Hgt]; [exact Hle|].
    destruct (Hrow1 (length (h_policy h1)) Hgt) as [b [_ [Hrow _]]].
    assert (nth_error (h_policy h1) (length (h_policy h1)) = None)
      by (apply nth_error_None; lia).
    congruence. }
  destruct (@improve_states_total R SR discount_factor V (nS (h_env h1)) 0
              true h1) as [stable2 [h2 E2]].
  { simpl. exact Hge. }
  { intros i Hi. destruct (Hrow1 i) as [b [_ [_ Hb]]]; [lia|]. eauto. }
  { intros i Hi. destruct (Hrow1 i) as [b [Hb _]]; [lia|]. eauto. }
  assert (E : improve discount_factor V h1 = Val (stable2, h2)) by exact E2.
  rewrite E. apply improve_inv in E.
  destruct E as [Henv2 [HV2 [Hlen2 [Hnew2 [Hold2 Hst2]]]]].
  assert (Hpol : h_policy h2 = h_policy h1).
  { apply nth_error_ext. intros s.
    destruct (Nat.lt_ge_cases s (nS (h_env h1))) as [Hs|Hs].
    - destruct (Hnew2 s Hs) as [o [b [_ [Hb Hrow]]]].
      destruct (Hrow1 s Hs) as [b1 [Hb1 [Hrow1' _]]].
      rewrite Hrow, Hrow1'. congruence.
    - apply Hold2. exact Hs. }
  assert (Hs2 : stable2 = true).
  { apply Hst2. intros s o b Hs Ho Hb.
    destruct (Hrow1 s Hs) as [b1 [Hb1 [_ Ho1]]]. congruence. }
  subst stable2. destruct h1 as [env1 pol1 V1], h2 as [env2 pol2 V2].
  cbn [h_env h_policy h_V] in *. subst. reflexivity.
Qed.

Lemma improvement_loop_own_value
    (zero_le_zero : (Szero <=? Szero) = true)
    (one_le_one : (Sone <=? Sone) = true)
    (one_le_zero : (Sone <=? Szero) = false)
    (zero_le_one : (Szero <=? Sone) = true)
    (discount_factor : R) (fuel_eval : nat) :
  forall (fuel : nat) (h : Heap R) (policy : list (list R)) (V : list R)
         (h' : Heap R),
    length (h_policy h) = nS (h_env h) ->
    (forall s, s < nS (h_env h) ->
       exists b, b < nA (h_env h) /\
                 nth_error (h_policy h) s = Some (eye_row (nA (h_env h)) b)) ->
    improvement_loop discount_factor fuel_eval fuel h
    = Val ((policy, V), h') ->
    inplace_eval (h_env h) policy default_discount_factor default_theta
                 fuel_eval = Val V.
Proof.
  induction fuel as [|fuel IH]; intros h policy V h' Hlen Hrows H.
  - discriminate.
  - cbn [improvement_loop] in H. unfold bind in H.
    destruct (policy_eval default_discount_factor default_theta fuel_eval h)
      as [[V1 h1]| |] eqn:E1; try discriminate.
    pose proof (@policy_eval_heap R SR _ _ _ _ _ _ E1) as ->.
    assert (Hv : value_of (policy_eval default_discount_factor
                             default_theta fuel_eval h) = Val V1)
      by (rewrite E1; reflexivity).
    rewrite policy_eval_value in Hv.
    destruct (improve discount_factor V1 _) as [[stable h2]| |] eqn:E2;
      try discriminate.
    pose proof (@improve_keeps_shape discount_factor V1
                  (mkHeap (h_env h) (h_policy h) V1) stable h2 Hlen E2)
      as [Hlen2 Hrows2].
    pose proof (@improve_inv R SR _ _ _ _ _ E2) as [Henv2 _].
    cbn [h_env h_policy] in *.
    destruct stable.
    + unfold get_policy, ret in H. injection H as <- <- _.
      rewrite (@stable_round_keeps_one_hot_policy R SR zero_le_zero
                 one_le_one one_le_zero zero_le_one discount_factor V1
                 (mkHeap (h_env h) (h_policy h) V1) h2 Hlen Hrows E2).
      exact Hv.
    + rewrite <- Henv2. apply (IH h2 policy V h' Hlen2); [|exact H].
      intros s Hs. destruct (Hrows2 s Hs) as [b [Hb [_ Hrow]]]. eauto.
Qed.

(** X11.  A loop that is entered with a deterministic policy (every row
    a row of [np.eye(env.nA)], as after any round of improvement) returns
    a policy together with that policy's own evaluation: evaluating the
    returned policy again gives the returned [V]. *)
Theorem improvement_loop_returns_own_value
    (zero_le_zero : (Szero <=? Szero) = true)
    (one_le_one : (Sone <=? Sone) = true)
    (one_le_zero : (Sone <=? Szero) = false)
    (zero_le_one : (Szero <=? Sone) = true)
    (discount_factor : R) (fuel_eval fuel : nat) (h : Heap R)
    (policy : list (list R)) (V : list R) (h' : Heap R) :
  length (h_policy h) = nS (h_env h) ->
  (forall s, s < nS (h_env h) ->
     exists b, b < nA (h_env h) /\
               nth_error (h_policy h) s = Some (eye_row (nA (h_env h)) b)) ->
  improvement_loop discount_factor fuel_eval fuel h
  = Val ((policy, V), h') ->
  forall W,
    value_of (policy_eval default_discount_factor default_theta fuel_eval
                          (mkHeap (h_env h) policy W))
    = Val V.
Proof.
  intros Hlen Hrows H W. rewrite policy_eval_value. cbn [h_env h_policy].
  eapply improvement_loop_own_value; eassumption.
Qed.

(** ** Environments without actions or without states *)

Lemma inplace_sweep_no_actions (env : Env R) (discount_factor : R)
    (V : list R) :
  inplace_sweep env (repeat [] (nS env)) discount_factor V
  = Val (zeros (nS env)).
Proof.
  unfold inplace_sweep.
  assert (Hgen : forall (k : nat) (updated : list R),
            (length updated + k = nS env)%nat ->
            rfold (fun updated s =>
                     v <-- backup env (repeat [] (nS env)) discount_factor
                                  (updated ++ skipn s V) s ;;
                     Val (updated ++ [v]))
                  (seq (length updated) k) updated
            = Val (updated ++ zeros k)).
  { induction k as [|k IH]; intros updated Hk; cbn [seq rfold].
    - cbn [zeros repeat]. now rewrite app_nil_r.
    - unfold backup at 1, index at 1.
      rewrite nth_error_repeat by lia. cbn [rbind enumerate enumerate_from rfold].
      pose proof (IH (updated ++ [Szero])) as IH'.
      rewrite length_app in IH'. cbn [length] in IH'.
      rewrite Nat.add_1_r, <- app_assoc in IH'. apply IH'. lia. }
  apply (Hgen (nS env) []). reflexivity.
Qed.

Lemma delta_of_zeros
    (zero_minus_zero : Szero - Szero = Szero)
    (abs_zero : Sabs Szero = Szero)
    (zero_lt_zero : (Szero <? Szero) = false)
    (n : nat) :
  delta_of (zeros n) (zeros n) = Szero.
Proof.
  unfold delta_of, zeros.
  induction n as [|n IH]; cbn [repeat combine fold_left fst snd].
  - reflexivity.
  - rewrite zero_minus_zero, abs_zero. unfold pymax at 2.
    rewrite zero_lt_zero. exact IH.
Qed.

(** X8.  An environment with states but no actions: the evaluation of the
    empty rows returns zeros, and then [np.argmax(policy[0])] of an empty
    row raises [ValueError]. *)
Theorem policy_improvement_no_actions
    (zero_minus_zero : Szero - Szero = Szero)
    (abs_zero : Sabs Szero = Szero)
    (zero_lt_zero : (Szero <? Szero) = false)
    (zero_lt_theta : (Szero <? default_theta) = true)
    (f : R -> R -> nat -> M R (list R)) (discount_factor : R) (fuel : nat)
    (h : Heap R) :
  nA (h_env h) = 0 -> 0 < nS (h_env h) ->
  value_of (policy_improvement f discount_factor (S fuel) h)
  = Exn ValueError.
Proof.
  intros HnA HnS.
  unfold policy_improvement, bind, env_nS, env_nA, new_policy.
  cbn [improvement_loop]. unfold bind. rewrite policy_eval_spec.
  cbn [h_env h_policy]. rewrite HnA. unfold uniform_policy. cbn [repeat].
  unfold inplace_eval. cbn [iterate_sweeps].
  rewrite inplace_sweep_no_actions. cbn [rbind].
  rewrite (delta_of_zeros zero_minus_zero abs_zero zero_lt_zero).
  rewrite zero_lt_theta.
  unfold improve, bind, env_nS. cbn [h_env].
  destruct (nS (h_env h)) as [|n]; [lia|].
  cbn [seq foldM]. unfold bind. rewrite improve_state_spec.
  reflexivity.
Qed.

(** X9.  An environment without states: the first round evaluates
    nothing, improves nothing and returns an empty policy with an empty
    value vector. *)
Theorem policy_improvement_no_states
    (zero_lt_theta : (Szero <? default_theta) = true)
    (f : R -> R -> nat -> M R (list R)) (discount_factor : R) (fuel : nat)
    (h : Heap R) :
  nS (h_env h) = 0 ->
  value_of (policy_improvement f discount_factor (S fuel) h)
  = Val ([], []).
Proof.
  intros HnS.
  unfold policy_improvement, bind, env_nS, env_nA, new_policy.
  cbn [improvement_loop]. unfold bind. rewrite policy_eval_spec.
  cbn [h_env h_policy]. rewrite HnS. unfold uniform_policy. cbn [repeat].
  unfold inplace_eval, inplace_sweep. rewrite HnS.
  cbn [zeros repeat iterate_sweeps seq rfold rbind].
  unfold delta_of. cbn [combine fold_left]. rewrite zero_lt_theta.
  unfold improve, bind, env_nS. cbn [h_env]. rewrite HnS.
  reflexivity.
Qed.

End Further.

(** * The further properties at work *)

Lemma chain_env_well_formed {R : Type} {SR : Scalar R} :
  well_formed_env (chain_env (R := R)).
Proof.
  split; [simpl; lia|]. intros s a Hs Ha. simpl in Hs, Ha.
  destruct s as [|[|[|s]]]; try lia; destruct a as [|a]; try lia;
    (eexists; split; [reflexivity | repeat constructor; simpl; lia]).
Qed.

Lemma Q_zero_lt_default_theta : Sltb (Szero : Q) default_theta = true.
Proof. vm_compute. reflexivity. Qed.

Local Open Scope float_scope.

(** The chain, evaluated in binary64. *)
Lemma policy_eval_result_length_witness :
  value_of (policy_eval 1 default_theta 10
              (mkHeap chain_env [[1]; [1]; [1]] []))
  = Val [1; 1; 0] /\
  length [1; 1; 0] = 3%nat.
Proof.
  assert (H : value_of (policy_eval 1 default_theta 10
                          (mkHeap chain_env [[1]; [1]; [1]] []))
              = Val [1; 1; 0]) by (vm_compute; reflexivity).
  split; [exact H|].
  exact (@policy_eval_result_length float Scalar_float 1 default_theta
           10%nat (mkHeap chain_env [[1]; [1]; [1]] []) [1; 1; 0] H).
Defined.

(** The two-armed environment under its uniform policy. *)
Lemma policy_eval_never_raises_witness :
  well_formed_env (R := float) bandit_env /\
  well_formed_policy (R := float) bandit_env (uniform_policy 2 2) /\
  (forall e,
     value_of (policy_eval 1 default_theta 10 (at_loop_start bandit_env))
     <> Exn e) /\
  (forall k, exists V,
     sweeps bandit_env (uniform_policy 2 2) 1 k = Val V /\
     length V = 2%nat).
Proof.
  split; [exact bandit_env_well_formed|].
  split; [exact (uniform_policy_well_formed bandit_env)|].
  exact (@policy_eval_never_raises float Scalar_float 1 default_theta
           10%nat (at_loop_start bandit_env) bandit_env_well_formed
           (uniform_policy_well_formed bandit_env)).
Defined.

(** The chain has three states; a policy of one row fails at state 1. *)
Lemma policy_eval_short_policy_witness :
  well_formed_env (R := float) chain_env /\
  Forall (fun row => length row = 1%nat) [[1]] /\
  (length [[1%float]] < 3)%nat /\
  value_of (policy_eval 1 default_theta 1 (mkHeap chain_env [[1]] []))
  = Exn IndexError.
Proof.
  assert (Hrows : Forall (fun row : list float => length row = 1%nat) [[1]])
    by (repeat constructor).
  assert (Hshort : (length [[1%float]] < 3)%nat) by (simpl; lia).
  split; [exact chain_env_well_formed|].
  split; [exact Hrows|]. split; [exact Hshort|].
  exact (@policy_eval_short_policy float Scalar_float 1 default_theta
           0%nat (mkHeap chain_env [[1]] []) chain_env_well_formed
           Hrows Hshort).
Defined.

(** The action values of state 0 of the two-armed environment. *)
Lemma one_step_lookahead_pure_witness :
  one_step_lookahead 1 0 [0.5; 0] (at_loop_start bandit_env)
  = Val ([1; 0], at_loop_start bandit_env) /\
  (at_loop_start (R := float) bandit_env = at_loop_start bandit_env /\
   length [1; 0] = 2%nat /\
   forall a, (a < 2)%nat ->
     exists x, nth_error [1; 0] a = Some x /\
               action_value bandit_env 1 [0.5; 0] 0 a = Val x).
Proof.
  assert (H : one_step_lookahead 1 0 [0.5; 0] (at_loop_start bandit_env)
              = Val ([1; 0], at_loop_start bandit_env))
    by (vm_compute; reflexivity).
  split; [exact H|].
  exact (@one_step_lookahead_pure float Scalar_float 1 0%nat [0.5; 0]
           (at_loop_start bandit_env) [1; 0] (at_loop_start bandit_env) H).
Defined.

(** A whole run on the two-armed environment. *)
Lemma policy_improvement_returns_greedy_policy_witness :
  policy_improvement policy_eval 1 10 (on_entry bandit_env)
  = Val (([[1; 0]; [1; 0]], [0.5; 0]),
         mkHeap bandit_env [[1; 0]; [1; 0]] [0.5; 0]) /\
  (bandit_env (R := float) = bandit_env /\
   [[1; 0]; [1; 0]] = [[1; 0]; [1; 0]] /\
   length [[1; 0]; [1; 0]] = 2%nat /\ length [0.5; 0] = 2%nat /\
   forall s, (s < 2)%nat ->
     exists b, (b < 2)%nat /\
               greedy_action bandit_env 1 [0.5; 0] s = Val b /\
               nth_error [[1; 0]; [1; 0]] s = Some (eye_row 2 b)).
Proof.
  assert (H : policy_improvement policy_eval 1 10 (on_entry bandit_env)
              = Val (([[1; 0]; [1; 0]], [0.5; 0]),
                     mkHeap bandit_env [[1; 0]; [1; 0]] [0.5; 0]))
    by (vm_compute; reflexivity).
  split; [exact H|].
  exact (@policy_improvement_returns_greedy_policy float Scalar_float
           policy_eval 1 10%nat (on_entry bandit_env)
           [[1; 0]; [1; 0]] [0.5; 0]
           (mkHeap bandit_env [[1; 0]; [1; 0]] [0.5; 0]) H).
Defined.

Lemma policy_improvement_never_raises_witness :
  well_formed_env (R := float) bandit_env /\
  value_of (policy_improvement policy_eval 1 10 (on_entry bandit_env))
  <> Exn KeyError.
Proof.
  split; [exact bandit_env_well_formed|].
  exact (@policy_improvement_never_raises float Scalar_float policy_eval 1
           10%nat (on_entry bandit_env) KeyError bandit_env_well_formed).
Defined.

(** A second improvement of the two-armed environment from the same values. *)
Lemma improve_idempotent_witness :
  improve 1 [0.5; 0] (at_loop_start bandit_env)
  = Val (true, mkHeap bandit_env [[1; 0]; [1; 0]] []) /\
  improve 1 [0.5; 0] (mkHeap bandit_env [[1; 0]; [1; 0]] [])
  = Val (true, mkHeap bandit_env [[1; 0]; [1; 0]] []).
Proof.
  assert (H : improve 1 [0.5; 0] (at_loop_start bandit_env)
              = Val (true, mkHeap bandit_env [[1; 0]; [1; 0]] []))
    by (vm_compute; reflexivity).
  split; [exact H|].
  exact (@improve_idempotent float Scalar_float
           eq_refl eq_refl eq_refl eq_refl 1 [0.5; 0] (at_loop_start bandit_env) true
           (mkHeap bandit_env [[1; 0]; [1; 0]] []) H).
Defined.

(** The two-armed environment entered with the worse deterministic
    policy: two rounds, and the value returned is that of the policy
    returned. *)
Lemma improvement_loop_returns_own_value_witness :
  length [[0; 1]; [1; 0]] = 2%nat /\
  (forall s, (s < 2)%nat ->
     exists b, (b < 2)%nat /\
               nth_error [[0; 1]; [1; 0]] s = Some (eye_row 2 b)) /\
  improvement_loop 1 10 10 (mkHeap bandit_env [[0; 1]; [1; 0]] [])
  = Val (([[1; 0]; [1; 0]], [1; 0]),
         mkHeap bandit_env [[1; 0]; [1; 0]] [1; 0]) /\
  forall W,
    value_of (policy_eval default_discount_factor default_theta 10
                (mkHeap bandit_env [[1; 0]; [1; 0]] W))
    = Val [1; 0].
Proof.
  assert (Hrows : forall s, (s < 2)%nat ->
            exists b, (b < 2)%nat /\
                      nth_error [[0; 1]; [1; 0]] s
                      = Some (eye_row (R := float) 2 b)).
  { intros [|[|s]] Hs; [exists 1%nat | exists 0%nat | lia];
      (split; [lia | reflexivity]). }
  assert (H : improvement_loop 1 10 10
                (mkHeap bandit_env [[0; 1]; [1; 0]] [])
              = Val (([[1; 0]; [1; 0]], [1; 0]),
                     mkHeap bandit_env [[1; 0]; [1; 0]] [1; 0]))
    by (vm_compute; reflexivity).
  split; [reflexivity|]. split; [exact Hrows|]. split; [exact H|].
  exact (@improvement_loop_returns_own_value float Scalar_float
           eq_refl eq_refl eq_refl eq_refl 1 10%nat 10%nat
           (mkHeap bandit_env [[0; 1]; [1; 0]] [])
           [[1; 0]; [1; 0]] [1; 0]
           (mkHeap bandit_env [[1; 0]; [1; 0]] [1; 0])
           eq_refl Hrows H).
Defined.

(** Three iterations against ten on the two-armed environment. *)
(** In binary64 no absolute value is below a [theta] that 0 is not
    below: [|x|] is NaN or at least 0. *)
Lemma float_abs_not_below (theta x : float) :
  (0 <? theta) = false -> (abs x <? theta) = false.
Proof.
  assert (H0 : FloatOps.Prim2SF 0 = SpecFloat.S754_zero false)
    by (vm_compute; reflexivity).
  rewrite !FloatAxioms.ltb_spec, FloatAxioms.abs_spec, H0.
  destruct (FloatOps.Prim2SF theta) as [[|]|[|]| |[|] m e];
    destruct (FloatOps.Prim2SF x) as [sx|sx| |sx mx ex]; cbn;
    try reflexivity; try discriminate.
Qed.

(** [theta = 0] on the two-armed environment, in binary64. *)
Lemma policy_eval_nonpositive_theta_witness :
  Sltb (Szero : float) 0 = false /\
  (forall x : float, Sltb (Sabs x) 0 = false) /\
  value_of (policy_eval 1 0 10 (at_loop_start bandit_env))
  <> Val [0.5; 0].
Proof.
  assert (Habs : forall x : float, Sltb (Sabs x) 0 = false)
    by (intros x; exact (@float_abs_not_below 0 x eq_refl)).
  split; [reflexivity|]. split; [exact Habs|].
  exact (@policy_eval_nonpositive_theta float Scalar_float 1 0 10%nat
           (at_loop_start bandit_env) [0.5; 0] eq_refl Habs).
Defined.


Local Close Scope float_scope.
Local Open Scope Q_scope.

(** One state and no action. *)
Lemma policy_improvement_no_actions_witness :
  nA (loop_env (R := Q) 0) = 0%nat /\
  (0 < nS (loop_env (R := Q) 0))%nat /\
  value_of (policy_improvement policy_eval 1 1 (on_entry (loop_env 0)))
  = Exn ValueError.
Proof.
  assert (HnS : (0 < nS (loop_env (R := Q) 0))%nat) by (simpl; lia).
  split; [reflexivity|]. split; [exact HnS|].
  exact (@policy_improvement_no_actions Q Scalar_Q
           eq_refl eq_refl eq_refl Q_zero_lt_default_theta policy_eval 1
           0%nat (on_entry (loop_env 0)) eq_refl HnS).
Defined.

(** No state and two actions. *)
Lemma policy_improvement_no_states_witness :
  nS (mkEnv (R := Q) 0 2 (fun _ _ => None)) = 0%nat /\
  value_of (policy_improvement policy_eval 1 1
              (on_entry (mkEnv 0 2 (fun _ _ => None))))
  = Val ([], []).
Proof.
  split; [reflexivity|].
  exact (@policy_improvement_no_states Q Scalar_Q
           Q_zero_lt_default_theta policy_eval 1 0%nat
           (on_entry (mkEnv 0 2 (fun _ _ => None))) eq_refl).
Defined.
